(** * Bela examples: Trill square oscillator pad and sample loader

    A shallow embedding of
    - [examples/Trill/trill-square-oscillator-pad-A/render.cpp]
      (the sensor task [loop] and the audio callback [render]), and
    - [examples/terminal-only/samples/main.cpp] (the file loader [initFile]),
    together with the properties their specification states about them.

    Numbers are modelled as the code has them: [int] is a 32-bit two's
    complement integer carried in [Z], [float] is IEEE-754 binary32 and
    [double] is binary64, both through the executable specification of
    [SpecFloat].  The one-pole smoother, whose code is a library outside
    these two files, is modelled over the reals from its documented
    formulas. *)

From Stdlib Require Import ZArith Lia List Bool String QArith.
From Stdlib Require Import Reals Lra.
From Stdlib Require Import Floats.SpecFloat.
From stdpp Require Import base list gmap.
Import ListNotations.

Local Open Scope Z_scope.

(** ** Machine integers *)

Module Int.

Definition INT_MIN : Z := - 2 ^ 31.
Definition INT_MAX : Z := 2 ^ 31 - 1.

(** Two's complement reduction of an integer to the range of [int]. *)
Definition wrap (z : Z) : Z := (z + 2 ^ 31) mod 2 ^ 32 - 2 ^ 31.

Definition in_range (z : Z) : bool := (INT_MIN <=? z) && (z <=? INT_MAX).

Definition add (a b : Z) : Z := wrap (a + b).

End Int.

(** [forall_range k lo f]: [f] holds of every integer in
    [[lo, lo + 2^k)]. *)
Fixpoint forall_range (k : nat) (lo : Z) (f : Z -> bool) : bool :=
  match k with
  | O => f lo
  | S k' => forall_range k' lo f && forall_range k' (lo + 2 ^ Z.of_nat k') f
  end.

(** ** IEEE-754 binary32 ([float]) *)

Module F32.

Definition prec : Z := 24.
Definition emax : Z := 128.

Definition float32 : Type := spec_float.

Definition add : float32 -> float32 -> float32 := SFadd prec emax.
Definition sub : float32 -> float32 -> float32 := SFsub prec emax.
Definition mul : float32 -> float32 -> float32 := SFmul prec emax.
Definition div : float32 -> float32 -> float32 := SFdiv prec emax.
Definition ltb : float32 -> float32 -> bool := SFltb.
Definition leb : float32 -> float32 -> bool := SFleb.
(** [==] of C: false when either side is NaN, true for [+0 == -0]. *)
Definition eqb : float32 -> float32 -> bool := SFeqb.

(** Conversion [int -> float], rounding to nearest even. *)
Definition of_int (z : Z) : float32 := binary_normalize prec emax z 0 false.

Definition zero : float32 := of_int 0.
Definition one : float32 := of_int 1.
(** [0.5f] *)
Definition half : float32 := div one (of_int 2).

Definition is_nan (x : float32) : bool :=
  match x with S754_nan => true | _ => false end.

Definition is_finite (x : float32) : bool :=
  match x with S754_zero _ | S754_finite _ _ _ => true | _ => false end.

(** [floor] of <cmath>: the largest integral value not above [x]; NaN,
    infinities and zeros are returned as they are. *)
Definition floor (x : float32) : float32 :=
  match x with
  | S754_finite s m e =>
      if 0 <=? e then x
      else binary_normalize prec emax
             (Z.shiftr (cond_Zopp s (Zpos m)) (- e)) 0 false
  | _ => x
  end.

(** The integer part of a finite float (truncation toward zero), [None]
    for NaN and the infinities. *)
Definition trunc (x : float32) : option Z :=
  match x with
  | S754_zero _ => Some 0
  | S754_finite s m e =>
      Some (cond_Zopp s (if 0 <=? e then Z.shiftl (Zpos m) e
                         else Z.shiftr (Zpos m) (- e)))
  | _ => None
  end.

(** Conversion [float -> int].  C++ defines it only when the truncated
    value fits in [int]; for NaN, infinities and values out of range the
    result is whatever the target's conversion instruction leaves, which
    the parameter [invalid] stands for (0 for NaN on the ARM VFP of the
    Bela board, [INT_MIN] on x86). *)
Definition to_int (invalid : float32 -> Z) (x : float32) : Z :=
  match trunc x with
  | Some z => if Int.in_range z then z else Int.wrap (invalid x)
  | None => Int.wrap (invalid x)
  end.

(** The closed interval [[0,1]], as a decidable predicate. *)
Definition in_unit (x : float32) : bool := leb zero x && leb x one.

End F32.

Declare Scope f32_scope.
Delimit Scope f32_scope with f32.
Infix "+" := F32.add : f32_scope.
Infix "-" := F32.sub : f32_scope.
Infix "*" := F32.mul : f32_scope.
Infix "/" := F32.div : f32_scope.
Infix "<?" := F32.ltb : f32_scope.
Infix "=?" := F32.eqb : f32_scope.

(** ** IEEE-754 binary64 ([double]) *)

Module F64.

Definition prec : Z := 53.
Definition emax : Z := 1024.

Definition float64 : Type := spec_float.

Definition mul : float64 -> float64 -> float64 := SFmul prec emax.
Definition div : float64 -> float64 -> float64 := SFdiv prec emax.
Definition ltb : float64 -> float64 -> bool := SFltb.

Definition of_int (z : Z) : float64 := binary_normalize prec emax z 0 false.

(** Widening [float -> double] is exact; the mantissa is re-aligned to
    53 bits. *)
Definition of_float (x : F32.float32) : float64 :=
  match x with
  | S754_finite s m e => binary_round prec emax s m e
  | _ => x
  end.

(** Narrowing [double -> float] rounds to nearest even. *)
Definition to_float (x : float64) : F32.float32 :=
  match x with
  | S754_finite s m e => binary_round F32.prec F32.emax s m e
  | _ => x
  end.

End F64.

(** ** Range mapping helpers of the Bela runtime

    [map] and [constrain] are called by [render.cpp] and defined in the
    runtime's utility header. *)

Module Utilities.

Local Open Scope f32_scope.

(** Modelled from the spec: the body of [map], which lives in the Bela
    runtime's utility header.  Contract of the Range Mapper:
    [out = outMin + (value - inMin) * (outMax - outMin) / (inMax - inMin)],
    evaluated in [float]; no clamping.  For [inMax == inMin], where the
    formula would divide by zero, the contract asks for a defined policy
    (return [outMin], or signal an error): [outMin] is returned. *)
Definition map (value inMin inMax outMin outMax : F32.float32) : F32.float32 :=
  if inMax =? inMin then outMin
  else outMin + (value - inMin) * (outMax - outMin) / (inMax - inMin).

(** Modelled from the spec: the body of [constrain], which lives in the
    Bela runtime's utility header.  Contract of [clamp]: restricts the
    value to [[lo, hi]], [lo <= hi] assumed. *)
Definition constrain (value lo hi : F32.float32) : F32.float32 :=
  if value <? lo then lo
  else if hi <? value then hi
  else value.

End Utilities.

(** ** The Trill square oscillator pad ([render.cpp]) *)

Module TrillPad.

Import F32.
Local Open Scope f32_scope.

(** What the Trill driver reports after one [readLocations()]: the slots
    [touchLocation(i)], [touchSize(i)] for [i < numberOfTouches()] and the
    slots [touchHorizontalLocation(i)] for
    [i < numberOfHorizontalTouches()]. *)
Record Trill : Type := {
  touches : list (Z * Z);
  horizontalTouches : list Z
}.

(** The globals shared by the sensor task and the audio callback. *)
Record Globals : Type := {
  gTouchPosition : float32 * float32;   (* [0] horizontal, [1] vertical *)
  gTouchSize : float32;
  gAmpL : float32;
  gAmpR : float32
}.

Definition gTouchSizeRange : Z * Z := (500, 6000)%Z.
Definition gFreqRange : float32 * float32 := (of_int 200, of_int 1500).

(** Initial values of the globals. *)
Definition globals_init : Globals :=
  {| gTouchPosition := (zero, zero); gTouchSize := zero;
     gAmpL := one; gAmpR := one |}.

(** The values the sensor task publishes for the audio callback:
    vertical position, horizontal position, size. *)
Definition ControlState (g : Globals) : float32 * float32 * float32 :=
  (snd (gTouchPosition g), fst (gTouchPosition g), gTouchSize g).

(** A slot counts as touched when its location is not 0. *)
Definition active (slot : Z * Z) : bool := negb (fst slot =? 0)%Z.
Definition activeHorizontal (loc : Z) : bool := negb (loc =? 0)%Z.

(** Body of the first [for] loop of [loop]: one slot, accumulators
    [(avgLocation, avgSize, numTouches)]. *)
Definition accumulate (acc : Z * Z * Z) (slot : Z * Z) : Z * Z * Z :=
  let '(avgLocation, avgSize, numTouches) := acc in
  if active slot
  then (Int.add avgLocation (fst slot), Int.add avgSize (snd slot),
        Int.add numTouches 1)
  else acc.

(** Body of the second [for] loop: accumulators
    [(avgHorizontalLocation, numHorizontalTouches)]. *)
Definition accumulateHorizontal (acc : Z * Z) (loc : Z) : Z * Z :=
  let '(avgHorizontalLocation, numHorizontalTouches) := acc in
  if activeHorizontal loc
  then (Int.add avgHorizontalLocation loc, Int.add numHorizontalTouches 1)
  else acc.

Section Platform.

(** The target's result for a [float -> int] conversion that C++ leaves
    undefined. *)
Variable invalid : float32 -> Z.

(** [floor(1.0f * sum / count)] stored into an [int]. *)
Definition average (sum count : Z) : Z :=
  to_int invalid (floor (one * of_int sum / of_int count)).

(** Lines 79-91: raw vertical location and size, averaged over the
    touched slots. *)
Definition aggregateVertical (t : Trill) : Z * Z :=
  let '(avgLocation, avgSize, numTouches) :=
    fold_left accumulate (touches t) (0, 0, 0)%Z in
  (average avgLocation numTouches, average avgSize numTouches).

(** Lines 97-106: raw horizontal location. *)
Definition aggregateHorizontal (t : Trill) : Z :=
  let '(avgHorizontalLocation, numHorizontalTouches) :=
    fold_left accumulateHorizontal (horizontalTouches t) (0, 0)%Z in
  average avgHorizontalLocation numHorizontalTouches.

(** One pass through the body of [while(!gShouldStop)] in [loop], for
    the sensor data [t] delivered by [readLocations()]. *)
Definition loop_iteration (t : Trill) (g : Globals) : Globals :=
  let '(avgLocation, avgSize) := aggregateVertical t in
  let size :=
    Utilities.map (of_int avgSize) (of_int (fst gTouchSizeRange))
      (of_int (snd gTouchSizeRange)) (of_int 0) (of_int 1) in
  let size := Utilities.constrain size (of_int 0) (of_int 1) in
  let vertical :=
    Utilities.map (of_int avgLocation) (of_int 0) (of_int 1792)
      (of_int 0) (of_int 1) in
  let vertical := Utilities.constrain vertical (of_int 0) (of_int 1) in
  let avgHorizontalLocation := aggregateHorizontal t in
  let horizontal :=
    Utilities.map (of_int avgHorizontalLocation) (of_int 0) (of_int 1792)
      (of_int 0) (of_int 1) in
  let horizontal := Utilities.constrain horizontal (of_int 0) (of_int 1) in
  {| gTouchPosition := (horizontal, vertical);
     gTouchSize := size;
     gAmpL := gAmpL g;
     gAmpR := gAmpR g |}.

(** [loop]: the body is run once per sensor reading until
    [gShouldStop] is raised; [reads] lists the readings of the
    iterations that ran. *)
Definition loop (reads : list Trill) (g : Globals) : Globals :=
  fold_left (fun g t => loop_iteration t g) reads g.

End Platform.

(** The conversion of the board's ARM VFP unit: NaN becomes 0 and
    values out of range saturate. *)
Definition arm_invalid (x : float32) : Z :=
  match x with
  | S754_infinity false | S754_finite false _ _ => Int.INT_MAX
  | S754_infinity true | S754_finite true _ _ => Int.INT_MIN
  | _ => 0%Z
  end.

(** All three published values lie in [[0,1]]. *)
Definition published_in_unit (g : Globals) : bool :=
  let '(vertical, horizontal, size) := ControlState g in
  in_unit vertical && in_unit horizontal && in_unit size.

(** A reading with no touch: every slot reports location 0. *)
Definition no_touch : Trill :=
  {| touches := [(0, 0); (0, 0)]%Z; horizontalTouches := [0%Z] |}.

(** One finger in the middle of the pad, of middle size. *)
Definition centre_touch : Trill :=
  {| touches := [(896, 3250)]%Z; horizontalTouches := [896%Z] |}.

(** *** The audio callback *)

(** The part of [BelaContext] that [render] uses; [audioOut] is the
    interleaved output buffer, one slot per frame and channel. *)
Record BelaContext : Type := {
  audioFrames : nat;
  audioOutChannels : nat;
  audioOut : list float32
}.

(** [audioWrite(context, frame, channel, value)] of the runtime: stores
    into the interleaved buffer. *)
Definition audioWrite (context : BelaContext) (frame channel : nat)
    (value : float32) : BelaContext :=
  {| audioFrames := audioFrames context;
     audioOutChannels := audioOutChannels context;
     audioOut :=
       <[ (frame * audioOutChannels context + channel)%nat := value ]>
         (audioOut context) |}.

(** Lines 159-160: linear crossfade between the two channels. *)
Definition pan_gains (panning : float32) : float32 * float32 :=
  (of_int 1 - panning, panning).

(** The DSP library objects used by [render], the one-pole filter and
    the oscillator, with the member functions called here.  Their code
    is outside the example; [render] is modelled against the interface. *)
Class DspLibrary : Type := {
  OnePole : Type;
  Oscillator : Type;
  OnePole_process : OnePole -> float32 -> OnePole * float32;
  Oscillator_setFrequency : Oscillator -> float32 -> Oscillator;
  Oscillator_process : Oscillator -> Oscillator * float32
}.

Section Render.

Context `{Dsp : DspLibrary}.

Record Patch : Type := {
  globals : Globals;
  freqFilt : OnePole;
  panFilt : OnePole;
  ampFilt : OnePole;
  osc : Oscillator
}.

(** Lines 169-175: the loop over the output channels of frame [n]. *)
Definition write_channels (n : nat) (ampL ampR out : float32)
    (context : BelaContext) : BelaContext :=
  fold_left
    (fun context channel =>
       if (channel =? 0)%nat then audioWrite context n channel (ampL * out)
       else if (channel =? 1)%nat then audioWrite context n channel (ampR * out)
       else context)
    (seq 0 (audioOutChannels context)) context.

(** Body of the frame loop of [render], for frame [n]. *)
Definition render_frame (n : nat) (s : BelaContext * Patch)
    : BelaContext * Patch :=
  let '(context, p) := s in
  let g := globals p in
  let frequency :=
    Utilities.map (snd (gTouchPosition g)) (of_int 0) (of_int 1)
      (fst gFreqRange) (snd gFreqRange) in
  let '(freqFilt', frequency) := OnePole_process (freqFilt p) frequency in
  let osc' := Oscillator_setFrequency (osc p) frequency in
  let '(panFilt', panning) :=
    OnePole_process (panFilt p) (fst (gTouchPosition g)) in
  let '(ampL, ampR) := pan_gains panning in
  let '(ampFilt', amplitude) := OnePole_process (ampFilt p) (gTouchSize g) in
  let '(osc'', sample) := Oscillator_process osc' in
  let out := amplitude * sample in
  (write_channels n ampL ampR out context,
   {| globals := {| gTouchPosition := gTouchPosition g;
                    gTouchSize := gTouchSize g;
                    gAmpL := ampL; gAmpR := ampR |};
      freqFilt := freqFilt'; panFilt := panFilt'; ampFilt := ampFilt';
      osc := osc'' |}).

(** [render]: all frames of one block. *)
Definition render (context : BelaContext) (p : Patch)
    : BelaContext * Patch :=
  fold_left (fun s n => render_frame n s)
    (seq 0 (audioFrames context)) (context, p).

(** The smoothed pan value of the frame rendered next from [p]. *)
Definition panning_of (p : Patch) : float32 :=
  snd (OnePole_process (panFilt p) (fst (gTouchPosition (globals p)))).

End Render.

(** A stand-in library for running [render]: filters that pass their
    input through and an oscillator that always yields 1. *)
Definition passthrough : DspLibrary :=
  {| OnePole := unit;
     Oscillator := unit;
     OnePole_process := fun f x => (f, x);
     Oscillator_setFrequency := fun o _ => o;
     Oscillator_process := fun o => (o, one) |}.

Definition passthrough_patch : @Patch passthrough :=
  @Build_Patch passthrough globals_init tt tt tt tt.

(** A block of two frames on three channels, with a marker in every
    slot of the buffer. *)
Definition three_channel_block : BelaContext :=
  {| audioFrames := 2; audioOutChannels := 3;
     audioOut := List.map of_int [10; 11; 12; 13; 14; 15]%Z |}.

(** [halves_exactly s]: the float computation of line 90 on the sum [s]
    of two slots gives the integer quotient of [s] by 2. *)
Definition halves_exactly (s : Z) : bool :=
  match trunc (floor (one * of_int s / of_int 2)) with
  | Some r => (r =? s / 2)%Z
  | None => false
  end.

End TrillPad.

(** ** The parameter smoother (one-pole low-pass) *)

Module Smoother.

Local Open Scope R_scope.

(** Modelled from the spec: the state of the [OnePole] class of the Bela
    DSP library, whose code is outside the two example files: the
    coefficient [a] and the previous output [y]. *)
Record OnePole : Type := { a : R; y : R }.

(** Modelled from the spec: [OnePole::setup], absent from the sources.
    [a = 1 - exp(-2*pi*cutoffHz/sampleRateHz)], state [y] initialised
    to 0. *)
Definition setup (cutoffHz sampleRateHz : R) : OnePole :=
  {| a := 1 - exp (- (2 * PI * cutoffHz / sampleRateHz)); y := 0 |}.

(** Modelled from the spec: [OnePole::process], absent from the sources.
    [y' = y + a*(x - y)], stored as the new state and returned. *)
Definition process (f : OnePole) (x : R) : OnePole * R :=
  let y' := y f + a f * (x - y f) in
  ({| a := a f; y := y' |}, y').

(** Modelled from the spec: the same update evaluated in [float], the
    type [render.cpp] passes to and receives from [process]. *)
Definition process32 (a y x : F32.float32) : F32.float32 :=
  (y + a * (x - y))%f32.

(** The filter after [n] calls of [process] with the same input [x]. *)
Fixpoint hold (f : OnePole) (x : R) (n : nat) : OnePole :=
  match n with
  | O => f
  | S n' => fst (process (hold f x n') x)
  end.

(** The value returned by call number [n] (counted from 0) of a run of
    [process] on the constant input [x]. *)
Definition output (f : OnePole) (x : R) (n : nat) : R :=
  snd (process (hold f x n) x).

End Smoother.

(** ** The sample loader ([main.cpp]) *)

Module Samples.

(** [struct SampleData] of [SampleData.h]: a buffer pointer ([None] is
    the null pointer) and its length. *)
Record SampleData : Type := {
  samples : option (list F32.float32);
  sampleLen : Z
}.

(** The fields of [SF_INFO] that [initFile] reads. *)
Record SF_INFO : Type := {
  frames : Z;
  channels : Z;
  format : Z
}.

(** An open [SNDFILE]: its header, the items [sf_read_float] delivers
    and the peak [SFC_CALC_SIGNAL_MAX] reports. *)
Record SNDFILE : Type := {
  info : SF_INFO;
  items : list F32.float32;
  signal_max : F64.float64
}.

(** Constants of [sndfile.h]. *)
Definition SF_FORMAT_SUBMASK : Z := 0xFFFF.
Definition SF_FORMAT_FLOAT : Z := 0x0006.
Definition SF_FORMAT_DOUBLE : Z := 0x0007.

Inductive pointer : Type := NULL | Ptr (addr : positive).

Inductive event : Type :=
| Cout (line : string)
| CoutScale (scale : F64.float64)   (* "File samples scale = " << scale *)
| New (n : Z)                       (* a successful [new float[n]] *)
| SfClose.

(** The objects [SampleData*] pointers refer to, and what the program
    did so far. *)
Record world : Type := {
  mem : gmap positive SampleData;
  trace : list event
}.

Inductive result (A : Type) : Type :=
| Ok (v : A) (w : world)
| Throw (w : world)      (* [std::bad_alloc] leaves the function *)
| Undefined.             (* a null or dangling pointer was dereferenced *)
Arguments Ok {A} v w.
Arguments Throw {A} w.
Arguments Undefined {A}.

Definition M (A : Type) : Type := world -> result A.

#[export] Instance M_ret : MRet M := fun A v w => Ok v w.

#[export] Instance M_bind : MBind M := fun A B k c w =>
  match c w with
  | Ok v w' => k v w'
  | Throw w' => Throw w'
  | Undefined => Undefined
  end.

Definition cout (line : string) : M unit :=
  fun w => Ok tt {| mem := mem w; trace := trace w ++ [Cout line] |}.

Definition emit (e : event) : M unit :=
  fun w => Ok tt {| mem := mem w; trace := trace w ++ [e] |}.

(** [*smp] *)
Definition load (smp : pointer) : M SampleData :=
  fun w =>
    match smp with
    | NULL => Undefined
    | Ptr p => match mem w !! p with Some d => Ok d w | None => Undefined end
    end.

(** [*smp = d] *)
Definition store (smp : pointer) (d : SampleData) : M unit :=
  fun w =>
    match smp with
    | NULL => Undefined
    | Ptr p =>
        match mem w !! p with
        | Some _ => Ok tt {| mem := <[p := d]> (mem w); trace := trace w |}
        | None => Undefined
        end
    end.

Definition is_null (smp : pointer) : bool :=
  match smp with NULL => true | Ptr _ => false end.

Section Environment.

(** [sf_open(file, SFM_READ, &sfinfo)]: the files that can be opened. *)
Variable sf_open : string -> option SNDFILE.
(** Whether the heap can serve [new float[n]], and the unspecified
    contents of a fresh block. *)
Variable heap_has : Z -> bool.
Variable fresh : nat -> F32.float32.

(** [new float[n]]: throws when [n] is negative or the heap is
    exhausted. *)
Definition new_float (n : Z) : M (list F32.float32) :=
  fun w =>
    if (0 <=? n) && heap_has n
    then Ok (List.map fresh (seq 0 (Z.to_nat n)))
            {| mem := mem w; trace := trace w ++ [New n] |}
    else Throw w.

(** [sf_read_float(sndfile, ptr, n)]: copies up to [n] items to the
    front of the buffer and returns how many. *)
Definition sf_read_float (sndfile : SNDFILE) (buf : list F32.float32)
    (n : Z) : Z * list F32.float32 :=
  let got := take (Z.to_nat n) (items sndfile) in
  (Z.of_nat (length got), got ++ drop (length got) buf).

(** Lines 66-67: pad with zeros from [readcount] up to [len]. *)
Definition pad_zeros (readcount len : Z) (buf : list F32.float32)
    : list F32.float32 :=
  fold_left (fun buf k => <[k := F32.of_int 0]> buf)
    (seq (Z.to_nat readcount) (Z.to_nat (len - readcount))) buf.

(** Lines 74-77: the scale factor for float and double files. *)
Definition scale_of (peak : F64.float64) : F64.float64 :=
  if F64.ltb peak (F64.div (F64.of_int 1) (F64.of_int (10 ^ 10)))
  then F64.of_int 1
  else F64.div (F64.of_int 32700) peak.

(** Lines 80-81: [samples[m] *= scale] for [m < len]. *)
Definition rescale (scale : F64.float64) (len : Z)
    (buf : list F32.float32) : list F32.float32 :=
  fold_left
    (fun buf m =>
       alter (fun s => F64.to_float (F64.mul (F64.of_float s) scale)) m buf)
    (seq 0 (Z.to_nat len)) buf.

(** [int initFile(string file, SampleData *smp)] *)
Definition initFile (file : string) (smp : pointer) : M Z :=
  match sf_open file with
  | None =>
      cout ("Couldn't open file " ++ file);;
      mret 1
  | Some sndfile =>
      let sfinfo := info sndfile in
      let numChan := channels sfinfo in
      if negb (numChan =? 1) then
        cout ("Error: " ++ file ++ " is not a mono file");;
        mret 1
      else
        d ← load smp;
        store smp {| samples := samples d;
                     sampleLen := Int.wrap (frames sfinfo * numChan) |};;
        d ← load smp;
        block ← new_float (sampleLen d);
        store smp {| samples := Some block; sampleLen := sampleLen d |};;
        if is_null smp then
          cout "Could not allocate buffer";;
          mret 1
        else
          let subformat := Z.land (format sfinfo) SF_FORMAT_SUBMASK in
          d ← load smp;
          let '(readcount, buf) :=
            sf_read_float sndfile (default [] (samples d)) (sampleLen d) in
          let buf := pad_zeros readcount (sampleLen d) buf in
          store smp {| samples := Some buf; sampleLen := sampleLen d |};;
          (if (subformat =? SF_FORMAT_FLOAT) || (subformat =? SF_FORMAT_DOUBLE)
           then
             let scale := scale_of (signal_max sndfile) in
             emit (CoutScale scale);;
             d ← load smp;
             store smp {| samples :=
                            Some (rescale scale (sampleLen d)
                                    (default [] (samples d)));
                          sampleLen := sampleLen d |}
           else mret tt);;
          emit SfClose;;
          mret 0
  end.

End Environment.

(** What a run printed and allocated; nothing is known after undefined
    behaviour. *)
Definition trace_of {A} (r : result A) : list event :=
  match r with
  | Ok _ w | Throw w => trace w
  | Undefined => []
  end.

Definition is_New (e : event) : bool :=
  match e with New _ => true | _ => false end.

(** The caller's object in [main]: [samples = 0], [sampleLen = -1]. *)
Definition sampleData_init : SampleData :=
  {| samples := None; sampleLen := -1 |}.

(** The line printed by the branch that follows the allocation. *)
Definition alloc_message : event := Cout "Could not allocate buffer".

(** The branch that follows the allocation was not entered so far. *)
Definition quiet_world (w : world) : Prop := ~ In alloc_message (trace w).

(** A computation that never enters that branch. *)
Definition quiet {A} (c : M A) : Prop :=
  forall w, quiet_world w ->
    match c w with
    | Ok _ w' | Throw w' => quiet_world w'
    | Undefined => True
    end.

(** A file system holding one stereo file and one mono file. *)
Definition stereo_file : SNDFILE :=
  {| info := {| frames := 4; channels := 2; format := 0x10002 |};
     items := List.map F32.of_int [1; 2; 3; 4; 5; 6; 7; 8];
     signal_max := F64.of_int 8 |}.

Definition mono_file : SNDFILE :=
  {| info := {| frames := 4; channels := 1; format := 0x10006 |};
     items := [F32.one; F32.half; F32.zero];
     signal_max := F64.of_int 1 |}.

Definition two_files (file : string) : option SNDFILE :=
  if String.eqb file "stereo.wav" then Some stereo_file
  else if String.eqb file "sample.wav" then Some mono_file
  else None.

(** [main] at the call of [initFile]: [sampleData] lives at address 1,
    nothing was printed yet. *)
Definition main_world : world :=
  {| mem := {[ 1%positive := sampleData_init ]}; trace := [] |}.

End Samples.

(** ** Checks by evaluation over the sensor's 16-bit readings *)

Module PadChecks.

Import F32 TrillPad.
Local Open Scope f32_scope.

(** Structural equality of two floats, signs of zeros included. *)
Definition same_float (x y : float32) : bool :=
  match x, y with
  | S754_zero s, S754_zero s' => Bool.eqb s s'
  | S754_infinity s, S754_infinity s' => Bool.eqb s s'
  | S754_finite s m e, S754_finite s' m' e' =>
      Bool.eqb s s' && Pos.eqb m m' && Z.eqb e e'
  | _, _ => false
  end.

(** Lines 92-93 (with [gTouchSizeRange]) and 94-95, 108-109 (with
    [0, 1792]): [constrain(map(raw, lo, hi, 0, 1), 0, 1)]. *)
Definition normalise (lo hi raw : Z) : float32 :=
  Utilities.constrain
    (Utilities.map (of_int raw) (of_int lo) (of_int hi) (of_int 0) (of_int 1))
    (of_int 0) (of_int 1).

(** Line 90 on the sum [s] of one slot gives [s] back. *)
Definition single_exactly (s : Z) : bool :=
  match trunc (floor (one * of_int s / of_int 1)) with
  | Some r => (r =? s)%Z
  | None => false
  end.

(** A raw size up to 500 is published as 0, one from 6000 on as 1. *)
Definition size_saturates (raw : Z) : bool :=
  if (raw <=? 500)%Z then same_float (normalise 500 6000 raw) zero
  else if (6000 <=? raw)%Z then same_float (normalise 500 6000 raw) one
  else true.

(** The reading [t] without its untouched slots. *)
Definition touched (t : Trill) : Trill :=
  {| touches := List.filter active (touches t);
     horizontalTouches := List.filter activeHorizontal (horizontalTouches t) |}.

(** [nondecreasing f n z prev]: starting from [prev], the values
    [f z, f (z+1), ..., f (z+n-1)] never decrease. *)
Fixpoint nondecreasing (f : Z -> float32) (n : nat) (z : Z) (prev : float32)
    : bool :=
  match n with
  | O => true
  | S n' => let v := f z in leb prev v && nondecreasing f n' (z + 1) v
  end.

(** Zero or a positive finite number. *)
Definition nonneg_finite (x : float32) : bool :=
  match x with
  | S754_zero _ | S754_finite false _ _ => true
  | _ => false
  end.

End PadChecks.

(** ** Vocabulary for the audio callback *)

Module RenderChecks.

Import F32 TrillPad.

Section Render.

Context `{Dsp : DspLibrary}.

(** Line 151-153: the smoothed frequency of the frame rendered next. *)
Definition frequency_of (p : Patch) : float32 :=
  snd (OnePole_process (freqFilt p)
         (Utilities.map (snd (gTouchPosition (globals p))) (of_int 0)
            (of_int 1) (fst gFreqRange) (snd gFreqRange))).

(** Lines 164-166: [out] of the frame rendered next from [p]. *)
Definition frame_output (p : Patch) : float32 :=
  let osc' := Oscillator_setFrequency (osc p) (frequency_of p) in
  let amplitude := snd (OnePole_process (ampFilt p) (gTouchSize (globals p))) in
  mul amplitude (snd (Oscillator_process osc')).

(** The patch when frame [n] of the block starts. *)
Definition patch_before (context : BelaContext) (p : Patch) (n : nat) : Patch :=
  snd (fold_left (fun s k => render_frame k s) (seq 0 n) (context, p)).

(** One call of [process] on a filter, keeping the new state. *)
Definition step_filter (x : float32) (f : OnePole) : OnePole :=
  fst (OnePole_process f x).

End Render.

End RenderChecks.

(** ** Vocabulary for the sample loader *)

Module SamplesChecks.

Import Samples.

(** Whether the subformat of a file asks for rescaling (line 69). *)
Definition is_float_format (fmt : Z) : bool :=
  let subformat := Z.land fmt SF_FORMAT_SUBMASK in
  (subformat =? SF_FORMAT_FLOAT) || (subformat =? SF_FORMAT_DOUBLE).

(** Lines 63-82: what ends up in a fresh block of [len] floats. *)
Definition filled (fresh : nat -> F32.float32) (sndfile : SNDFILE) (len : Z)
    : list F32.float32 :=
  let block := List.map fresh (seq 0 (Z.to_nat len)) in
  let '(readcount, buf) := sf_read_float sndfile block len in
  let buf := pad_zeros readcount len buf in
  if is_float_format (format (info sndfile))
  then rescale (scale_of (signal_max sndfile)) len buf
  else buf.

(** What [initFile] adds to the trace when it loads [sndfile]. *)
Definition load_events (sndfile : SNDFILE) (len : Z) : list event :=
  [New len]
  ++ (if is_float_format (format (info sndfile))
      then [CoutScale (scale_of (signal_max sndfile))] else [])
  ++ [SfClose].

Definition is_SfClose (e : event) : bool :=
  match e with SfClose => true | _ => false end.

(** Two more files: 16-bit PCM with fewer items than its header says,
    and a header with more frames than an [int] holds. *)
Definition pcm_file : SNDFILE :=
  {| info := {| frames := 5; channels := 1; format := 0x10002 |};
     items := List.map F32.of_int [1; 2; 3];
     signal_max := F64.of_int 3 |}.

Definition long_file : SNDFILE :=
  {| info := {| frames := 2 ^ 31 + 5; channels := 1; format := 0x10002 |};
     items := [];
     signal_max := F64.of_int 0 |}.

Definition more_files (file : string) : option SNDFILE :=
  if String.eqb file "pcm.wav" then Some pcm_file
  else if String.eqb file "long.wav" then Some long_file
  else two_files file.

End SamplesChecks.

(** ** [setup] of the oscillator pad ([render.cpp]) *)

Module PadSetup.

Import F32 TrillPad.

Definition gPrescalerOpts : list Z := [1; 2; 4; 8; 16; 32]%Z.
Definition gThresholdOpts : list Z := [0; 10; 20; 30; 40; 50; 60]%Z.

Inductive filter : Type := FreqFilt | PanFilt | AmpFilt.

(** What [setup] asks of the sensor driver, the runtime and the DSP
    library, in order. *)
Inductive call : Type :=
| SensorSetup (bus address threshold prescaler : Z)
    (* [touchSensor.setup(bus, address, Trill::NORMAL, threshold, prescaler)] *)
| Stderr (line : string)
| PrintDetails
| ScheduleAuxiliaryTask (priority : Z) (name : string)
    (* [Bela_scheduleAuxiliaryTask(Bela_createAuxiliaryTask(loop, ...))] *)
| FilterSetup (f : filter) (cutoff sampleRate : float32)
| OscillatorSetup (frequency sampleRate : float32).
    (* [osc.setup(frequency, sampleRate, Oscillator::triangle)] *)

(** What the hardware answers: the result of [touchSensor.setup], whether
    [deviceType()] is [Trill::TWOD], and [context->audioSampleRate]. *)
Record Hardware : Type := {
  sensorStatus : Z;
  isTrillSquare : bool;
  audioSampleRate : float32
}.

(** [bool setup(BelaContext *context, void *userData)]: the result and
    the calls made. *)
Definition setup (hw : Hardware) : bool * list call :=
  let init :=
    SensorSetup 1 0x18 (nth 6 gThresholdOpts 0%Z) (nth 0 gPrescalerOpts 0%Z) in
  if negb (sensorStatus hw =? 0)%Z then
    (false, [init; Stderr "Unable to initialise touch sensor
"])
  else if negb (isTrillSquare hw) then
    (false,
     [init; PrintDetails;
      Stderr "This example is supposed to work only with the Trill SQUARE. 
 You may have to adapt it to make it work with other Trill devices.
"])
  else
    (true,
     [init; PrintDetails;
      ScheduleAuxiliaryTask 50 "I2C-read";
      FilterSetup FreqFilt (of_int 1) (audioSampleRate hw);
      FilterSetup PanFilt (of_int 1) (audioSampleRate hw);
      FilterSetup AmpFilt (of_int 1) (audioSampleRate hw);
      OscillatorSetup (fst gFreqRange) (audioSampleRate hw)]).

(** The calls that start work: the auxiliary task, a filter or the
    oscillator. *)
Definition starts_work (c : call) : bool :=
  match c with
  | ScheduleAuxiliaryTask _ _ | FilterSetup _ _ _ | OscillatorSetup _ _ => true
  | _ => false
  end.

Definition is_error (c : call) : bool :=
  match c with Stderr _ => true | _ => false end.

End PadSetup.

(** ** [main] of the sample player ([main.cpp]) *)

Module Main.

Import Samples.

(** The option characters of ["hf:"] as [Bela_getopt_long] returns them. *)
Definition opt_h : Z := 104.   (* 'h' *)
Definition opt_f : Z := 102.   (* 'f' *)

(** What the program does that can be seen from outside, in order. *)
Inductive step : Type :=
| Usage                      (* [usage(basename(argv[0]))] *)
| SettingsFree               (* [Bela_InitSettings_free(settings)] *)
| Say (line : string)        (* a line on [cout] *)
| SaySamples (n : Z)         (* "File contains " << sampleLen << " samples" *)
| Loader (e : event)         (* what [initFile] printed and allocated *)
| InitAudio                  (* [Bela_initAudio(settings, &sampleData)] *)
| StartAudio                 (* [Bela_startAudio()] *)
| InstallHandlers            (* [signal(SIGINT, ...)], [signal(SIGTERM, ...)] *)
| Usleep                     (* [usleep(100000)] *)
| StopAudio                  (* [Bela_stopAudio()] *)
| CleanupAudio.              (* [Bela_cleanupAudio()] *)

Inductive ending : Type :=
| Exit (code : Z)     (* [return code] *)
| Terminated          (* an exception left [main] *)
| Crashed             (* undefined behaviour *)
| Waiting.            (* still in the run loop when the observation ends *)

(** The surroundings of one run. *)
Record Env : Type := {
  (** the successive results of [Bela_getopt_long] with their [optarg];
      the end of the list stands for a negative result *)
  options : list (Z * string);
  verbose : bool;                       (* [settings->verbose] *)
  files : string -> option SNDFILE;
  heap : Z -> bool;
  garbage : nat -> F32.float32;
  initAudioStatus : Z;                  (* result of [Bela_initAudio] *)
  startAudioStatus : Z;                 (* result of [Bela_startAudio] *)
  (** the values of [gShouldStop] seen by the successive tests of the run
      loop; [interrupt_handler] makes it true *)
  shouldStop : list bool
}.

Inductive parsed : Type :=
| Leave (ret : Z)              (* [ret >= 0]: usage printed, leave *)
| Proceed (fileName : string).

(** Lines 132-155: the option loop. *)
Fixpoint parse (opts : list (Z * string)) (fileName : string) : parsed :=
  match opts with
  | [] => Proceed fileName
  | (c, optarg) :: rest =>
      if c <? 0 then Proceed fileName
      else if c =? opt_h then Leave 0
      else if c =? opt_f then parse rest optarg
      else Leave 1
  end.

(** Lines 194-196: sleep until [gShouldStop] is seen true; the flag says
    whether that happened within the observation. *)
Fixpoint run_loop (flags : list bool) : bool * list step :=
  match flags with
  | [] => (false, [])
  | true :: _ => (true, [])
  | false :: rest => let '(stopped, sleeps) := run_loop rest in
                     (stopped, Usleep :: sleeps)
  end.

(** Lines 157-159. *)
Definition default_name (fileName : string) : string :=
  if String.eqb fileName EmptyString then "sample.wav" else fileName.

(** Lines 161-205: everything after the option loop. *)
Definition load_and_play (e : Env) (fileName : string)
    : ending * list step :=
  let fileName := default_name fileName in
  let hello :=
    [Say ("Loading file " ++ fileName);
     Say "You can load a custom file with `--file [-f] filename'"] in
  match initFile (files e) (heap e) (garbage e) fileName (Ptr 1) main_world with
  | Undefined => (Crashed, hello)
  | Throw w => (Terminated, hello ++ List.map Loader (trace w))
  | Ok ret w =>
      let loaded := hello ++ List.map Loader (trace w) in
      if negb (ret =? 0) then
        (Exit 1, loaded ++ [Say "Error: unable to load samples "])
      else
        let told :=
          if verbose e
          then match mem w !! 1%positive with
               | Some d => [SaySamples (sampleLen d)]
               | None => []
               end
          else [] in
        let ready := loaded ++ told ++ [InitAudio] in
        if negb (initAudioStatus e =? 0) then
          (Exit 1,
           ready ++ [SettingsFree; Say "Error: unable to initialise audio"])
        else
          let started := ready ++ [SettingsFree; StartAudio] in
          if negb (startAudioStatus e =? 0) then
            (Exit 1, started ++ [Say "Error: unable to start real-time audio"])
          else
            let '(stopped, sleeps) := run_loop (shouldStop e) in
            if stopped
            then (Exit 0,
                  started ++ [InstallHandlers] ++ sleeps
                  ++ [StopAudio; CleanupAudio])
            else (Waiting, started ++ [InstallHandlers] ++ sleeps)
  end.

(** [int main(int argc, char *argv[])] *)
Definition main (e : Env) : ending * list step :=
  match parse (options e) EmptyString with
  | Leave ret => (Exit ret, [Usage; SettingsFree])
  | Proceed fileName => load_and_play e fileName
  end.

Definition is_audio (s : step) : bool :=
  match s with
  | InitAudio | StartAudio | StopAudio | CleanupAudio => true
  | _ => false
  end.

Definition is_free (s : step) : bool :=
  match s with SettingsFree => true | _ => false end.

(** A command line of [-f] options only. *)
Definition only_files (names : list string) : list (Z * string) :=
  List.map (fun name => (opt_f, name)) names.

(** A run with the files of [two_files], plenty of memory, a working
    audio device, and Ctrl-C seen by the third test of the run loop. *)
Definition demo (opts : list (Z * string)) : Env :=
  {| options := opts; verbose := true;
     files := two_files; heap := fun _ => true;
     garbage := fun _ => F32.zero;
     initAudioStatus := 0; startAudioStatus := 0;
     shouldStop := [false; false; true] |}.

End Main.

(** * Properties *)

(** ** Rounding never invents a NaN *)

Section RoundingFacts.

Variables prec emax : Z.

Lemma iter_pos_invariant {A : Type} (P : A -> Prop) (f : A -> A) :
  (forall x, P x -> P (f x)) ->
  forall n x, P x -> P (SpecFloat.iter_pos f n x).
Proof.
  intros Hf n. induction n as [n IH | n IH | ]; intros x Hx; simpl.
  - apply IH, IH, Hf, Hx.
  - apply IH, IH, Hx.
  - apply Hf, Hx.
Qed.

Lemma shr_1_nonneg mrs : 0 <= shr_m mrs -> 0 <= shr_m (shr_1 mrs).
Proof.
  destruct mrs as [m r s]. simpl.
  destruct m as [ | [p | p | ] | [p | p | ] ]; simpl; lia.
Qed.

Lemma shr_nonneg mrs e n : 0 <= shr_m mrs -> 0 <= shr_m (fst (shr mrs e n)).
Proof.
  intros H. destruct n as [ | p | p ]; simpl; trivial.
  apply (iter_pos_invariant (fun x => 0 <= shr_m x)); trivial.
  apply shr_1_nonneg.
Qed.

Lemma shr_record_of_loc_m m l : shr_m (shr_record_of_loc m l) = m.
Proof. destruct l as [ | [ | | ] ]; reflexivity. Qed.

Lemma shr_fexp_nonneg m e l :
  0 <= m -> 0 <= shr_m (fst (shr_fexp prec emax m e l)).
Proof.
  intros H. unfold shr_fexp. apply shr_nonneg.
  rewrite shr_record_of_loc_m. exact H.
Qed.

Lemma round_nearest_even_nonneg m l : 0 <= m -> 0 <= round_nearest_even m l.
Proof.
  intros H. destruct l as [ | [ | | ] ]; simpl; try lia.
  destruct (Z.even m); lia.
Qed.

Lemma binary_round_aux_not_nan sx mx ex lx :
  0 <= mx -> binary_round_aux prec emax sx mx ex lx <> S754_nan.
Proof.
  intros H. unfold binary_round_aux.
  pose proof (shr_fexp_nonneg mx ex lx H) as H1.
  destruct (shr_fexp prec emax mx ex lx) as [mrs' e'].
  simpl in H1.
  pose proof (shr_fexp_nonneg
                (round_nearest_even (shr_m mrs') (loc_of_shr_record mrs'))
                e' loc_Exact
                (round_nearest_even_nonneg _ _ H1)) as H2.
  destruct (shr_fexp prec emax _ e' loc_Exact) as [mrs'' e''].
  simpl in H2.
  destruct (shr_m mrs'') as [ | m | m ]; try discriminate; try lia.
  destruct (e'' <=? emax - prec); discriminate.
Qed.

Lemma binary_round_not_nan sx mx ex :
  binary_round prec emax sx mx ex <> S754_nan.
Proof.
  unfold binary_round.
  destruct (shl_align mx ex _) as [mz ez].
  apply binary_round_aux_not_nan. lia.
Qed.

Lemma binary_normalize_not_nan m e szero :
  binary_normalize prec emax m e szero <> S754_nan.
Proof.
  destruct m; simpl; try discriminate; apply binary_round_not_nan.
Qed.

Lemma SFdiv_core_binary_nonneg m1 e1 m2 e2 :
  0 <= fst (fst (SFdiv_core_binary prec emax (Zpos m1) e1 (Zpos m2) e2)).
Proof.
  unfold SFdiv_core_binary.
  set (s := e1 - e2 - _).
  set (m' := match s with Z0 => Zpos m1 | Zpos _ => Z.shiftl (Zpos m1) s
                     | Zneg _ => 0 end).
  assert (Hm : 0 <= m').
  { subst m'. destruct s; try lia. apply Z.shiftl_nonneg. lia. }
  pose proof (Z.div_pos m' (Zpos m2) Hm ltac:(lia)) as Hq.
  unfold Z.div in Hq.
  destruct (Z.div_eucl m' (Zpos m2)) as [q r]. exact Hq.
Qed.

End RoundingFacts.


Lemma forall_range_spec k f : forall lo,
  forall_range k lo f = true ->
  forall z, lo <= z < lo + 2 ^ Z.of_nat k -> f z = true.
Proof.
  induction k as [ | k IH]; intros lo H z Hz.
  - simpl in *. replace z with lo by lia. exact H.
  - cbn [forall_range] in H. apply andb_prop in H as [H1 H2].
    rewrite Nat2Z.inj_succ, Z.pow_succ_r in Hz by lia.
    destruct (Z_lt_le_dec z (lo + 2 ^ Z.of_nat k)).
    + apply (IH lo); trivial. lia.
    + apply (IH (lo + 2 ^ Z.of_nat k)); trivial. lia.
Qed.

Lemma wrap_small z : Int.INT_MIN <= z <= Int.INT_MAX -> Int.wrap z = z.
Proof.
  unfold Int.INT_MIN, Int.INT_MAX, Int.wrap. intros H.
  rewrite Z.mod_small; lia.
Qed.

(** ** Facts about [float] arithmetic *)

Module F32Facts.

Import F32.
Local Open Scope f32_scope.

Lemma normalize_is_nan p em m e s :
  is_nan (binary_normalize p em m e s) = false.
Proof.
  pose proof (binary_normalize_not_nan p em m e s) as H.
  destruct (binary_normalize p em m e s); trivial. now elim H.
Qed.

Lemma round_aux_is_nan p em sx mx ex lx :
  (0 <= mx)%Z -> is_nan (binary_round_aux p em sx mx ex lx) = false.
Proof.
  intros Hm.
  pose proof (binary_round_aux_not_nan p em sx mx ex lx Hm) as H.
  destruct (binary_round_aux p em sx mx ex lx); trivial. now elim H.
Qed.

Lemma of_int_not_nan z : is_nan (of_int z) = false.
Proof. apply normalize_is_nan. Qed.

Lemma zero_eq : zero = S754_zero false.
Proof. reflexivity. Qed.

Lemma one_eq : one = S754_finite false 8388608 (-23).
Proof. vm_compute. reflexivity. Qed.

(** Subtracting a finite number cannot produce a NaN. *)
Lemma sub_finite_not_nan x c :
  is_nan x = false -> is_finite c = true -> is_nan (x - c) = false.
Proof.
  intros Hx Hc.
  destruct x as [sx | sx | | sx mx ex]; try discriminate Hx;
    destruct c as [sc | sc | | sc mc ec]; try discriminate Hc.
  - destruct sx, sc; reflexivity.
  - reflexivity.
  - reflexivity.
  - reflexivity.
  - reflexivity.
  - apply normalize_is_nan.
Qed.

(** Multiplying by a finite number other than zero cannot produce a NaN. *)
Lemma mul_finite_not_nan x s m e :
  is_nan x = false -> is_nan (x * S754_finite s m e) = false.
Proof.
  intros Hx.
  destruct x as [sx | sx | | sx mx ex]; try discriminate Hx.
  - reflexivity.
  - reflexivity.
  - apply round_aux_is_nan. lia.
Qed.

(** Dividing by a finite number other than zero cannot produce a NaN. *)
Lemma div_finite_not_nan x s m e :
  is_nan x = false -> is_nan (x / S754_finite s m e) = false.
Proof.
  intros Hx.
  destruct x as [sx | sx | | sx mx ex]; try discriminate Hx.
  - reflexivity.
  - reflexivity.
  - unfold div, SFdiv.
    pose proof (SFdiv_core_binary_nonneg prec emax mx ex m e) as Hq.
    destruct (SFdiv_core_binary prec emax (Z.pos mx) ex (Z.pos m) e)
      as [[mz ez] lz].
    apply round_aux_is_nan. exact Hq.
Qed.

(** Adding to a finite number cannot produce a NaN. *)
Lemma add_finite_not_nan c x :
  is_finite c = true -> is_nan x = false -> is_nan (c + x) = false.
Proof.
  intros Hc Hx.
  destruct x as [sx | sx | | sx mx ex]; try discriminate Hx;
    destruct c as [sc | sc | | sc mc ec]; try discriminate Hc.
  - destruct sx, sc; reflexivity.
  - reflexivity.
  - reflexivity.
  - reflexivity.
  - reflexivity.
  - apply normalize_is_nan.
Qed.

(** The difference of a number with itself is a zero, or a NaN when the
    number is not finite. *)
Lemma sub_diag x : x - x = S754_nan \/ exists s, x - x = S754_zero s.
Proof.
  destruct x as [s | s | | s m e].
  - right. destruct s; eexists; reflexivity.
  - left. destruct s; reflexivity.
  - left. reflexivity.
  - right. exists false. unfold sub, SFsub.
    rewrite Z.sub_diag. reflexivity.
Qed.

Lemma div_zero_not_finite x s : is_finite (x / S754_zero s) = false.
Proof. destruct x as [sx | sx | | sx mx ex]; reflexivity. Qed.

Lemma div_nan_not_finite x : is_finite (x / S754_nan) = false.
Proof. destruct x as [sx | sx | | sx mx ex]; reflexivity. Qed.

Lemma add_not_finite c x : is_finite x = false -> is_finite (c + x) = false.
Proof.
  intros Hx.
  destruct x as [sx | sx | | sx mx ex]; try discriminate Hx.
  - destruct c as [sc | sc | | sc mc ec]; try reflexivity.
    destruct sc, sx; reflexivity.
  - destruct c as [sc | sc | | sc mc ec]; reflexivity.
Qed.

Lemma ltb_zero_false_leb x :
  is_nan x = false -> (x <? zero) = false -> leb zero x = true.
Proof.
  intros Hx H.
  destruct x as [sx | sx | | sx mx ex]; try discriminate Hx;
    destruct sx; try discriminate H; reflexivity.
Qed.

Lemma ltb_one_false_leb x :
  is_nan x = false -> (one <? x) = false -> leb x one = true.
Proof.
  rewrite one_eq. intros Hx H.
  destruct x as [sx | sx | | sx mx ex]; try discriminate Hx.
  - reflexivity.
  - destruct sx; [reflexivity | discriminate H].
  - destruct sx; [reflexivity | ].
    revert H. unfold ltb, leb, SFltb, SFleb, SFcompare.
    rewrite (Z.compare_antisym ex (-23)).
    destruct (ex ?= -23)%Z; cbn [CompOpp]; try discriminate; try reflexivity.
    pose proof (Pos.compare_cont_antisym mx 8388608 Eq) as Ha.
    cbn [CompOpp] in Ha. rewrite <- Ha.
    destruct (Pos.compare_cont Eq mx 8388608); cbn [CompOpp];
      try discriminate; reflexivity.
Qed.

End F32Facts.

(** ** The range mapper *)

Module UtilitiesFacts.

Import F32 F32Facts.
Local Open Scope f32_scope.

(** [map] onto a finite output range from an input range of finite,
    different ends takes a number to a number. *)
Lemma map_not_nan x inMin inMax outMin outMax s m e s' m' e' :
  is_nan x = false ->
  is_finite inMin = true ->
  is_finite outMin = true ->
  outMax - outMin = S754_finite s m e ->
  inMax - inMin = S754_finite s' m' e' ->
  is_nan (Utilities.map x inMin inMax outMin outMax) = false.
Proof.
  intros Hx Hi Ho Hout Hin. unfold Utilities.map.
  destruct (eqb inMax inMin).
  - destruct outMin; try discriminate Ho; reflexivity.
  - rewrite Hout, Hin.
    apply add_finite_not_nan; trivial.
    apply div_finite_not_nan, mul_finite_not_nan, sub_finite_not_nan; trivial.
Qed.

(** [constrain] to [[0,1]] puts every number into [[0,1]]. *)
Lemma constrain_in_unit x :
  is_nan x = false ->
  in_unit (Utilities.constrain x (of_int 0) (of_int 1)) = true.
Proof.
  intros Hx. unfold Utilities.constrain.
  change (of_int 0) with zero. change (of_int 1) with one.
  destruct (x <? zero) eqn:H0; [vm_compute; reflexivity | ].
  destruct (one <? x) eqn:H1; [vm_compute; reflexivity | ].
  unfold in_unit.
  rewrite ltb_zero_false_leb, ltb_one_false_leb; trivial.
Qed.

(** The normalisation the sensor task applies to a raw integer. *)
Lemma normalised_in_unit z lo hi s m e :
  of_int hi - of_int lo = S754_finite s m e ->
  is_finite (of_int lo) = true ->
  in_unit
    (Utilities.constrain
       (Utilities.map (of_int z) (of_int lo) (of_int hi) (of_int 0) (of_int 1))
       (of_int 0) (of_int 1)) = true.
Proof.
  intros Hr Hlo. apply constrain_in_unit.
  eapply map_not_nan; try eassumption.
  - apply of_int_not_nan.
  - reflexivity.
  - vm_compute. reflexivity.
Qed.

(** Without the fallback the formula has no number to give: with equal
    bounds it divides by [inMin - inMin], and the result is a NaN or an
    infinity for every value and every output range. *)
Lemma degenerate_quotient_not_finite value inMin outMin outMax :
  is_finite (outMin + (value - inMin) * (outMax - outMin) / (inMin - inMin))
  = false.
Proof.
  apply add_not_finite.
  destruct (sub_diag inMin) as [H | [s H]]; rewrite H.
  - apply div_nan_not_finite.
  - apply div_zero_not_finite.
Qed.

(** Away from equal bounds [map] is the linear formula. *)
Lemma map_regular value inMin inMax outMin outMax :
  (inMax =? inMin) = false ->
  Utilities.map value inMin inMax outMin outMax
  = outMin + (value - inMin) * (outMax - outMin) / (inMax - inMin).
Proof. intros H. unfold Utilities.map. now rewrite H. Qed.

(** The three calls of [map] in [render.cpp] (lines 92, 94 and 108, 151)
    pass different bounds, so they compute the linear formula. *)
Lemma map_call_sites_regular :
  (of_int 6000 =? of_int 500) = false /\
  (of_int 1792 =? of_int 0) = false /\
  (of_int 1 =? of_int 0) = false.
Proof. repeat split; vm_compute; reflexivity. Qed.

(** C4: for every value and every output range, [map] with
    [inMin == inMax] returns the fallback [outMin] instead of the
    quotient by zero; for a finite [outMin] that is a finite number,
    neither NaN nor an infinity. *)
Theorem map_degenerate_range_fallback value inMin inMax outMin outMax :
  (inMax =? inMin) = true ->
  Utilities.map value inMin inMax outMin outMax = outMin /\
  (is_finite outMin = true ->
   is_finite (Utilities.map value inMin inMax outMin outMax) = true /\
   is_nan (Utilities.map value inMin inMax outMin outMax) = false).
Proof.
  intros H. unfold Utilities.map. rewrite H.
  split; [reflexivity | ]. intros Ho.
  split; [exact Ho | ]. destruct outMin; try discriminate Ho; reflexivity.
Qed.

Lemma map_degenerate_range_fallback_witness :
  Utilities.map (of_int 1) (of_int 0) (of_int 0) (of_int 0) (of_int 1)
  = of_int 0 /\
  (is_finite (of_int 0) = true ->
   is_finite
     (Utilities.map (of_int 1) (of_int 0) (of_int 0) (of_int 0) (of_int 1))
   = true /\
   is_nan
     (Utilities.map (of_int 1) (of_int 0) (of_int 0) (of_int 0) (of_int 1))
   = false).
Proof.
  apply (map_degenerate_range_fallback (of_int 1) (of_int 0) (of_int 0)
           (of_int 0) (of_int 1)).
  reflexivity.
Defined.

End UtilitiesFacts.

(** ** The sensor task *)

Module LoopFacts.

Import F32 F32Facts UtilitiesFacts TrillPad.

(** Untouched slots do not change the accumulators. *)
Lemma fold_accumulate_active slots : forall acc,
  fold_left accumulate slots acc
  = fold_left accumulate (List.filter active slots) acc.
Proof.
  induction slots as [ | slot slots IH]; intros acc; [reflexivity | ].
  cbn [fold_left List.filter].
  destruct (active slot) eqn:Ha.
  - cbn [fold_left]. apply IH.
  - rewrite <- IH. f_equal.
    unfold accumulate. destruct acc as [[l s] n]. now rewrite Ha.
Qed.

Lemma accumulate_active l s n slot :
  active slot = true ->
  accumulate (l, s, n) slot
  = (Int.add l (fst slot), Int.add s (snd slot), Int.add n 1).
Proof. intros H. unfold accumulate. now rewrite H. Qed.

(** Line 90 on every sum of two 16-bit readings, by evaluation. *)
Lemma halves_exactly_all : forall_range 17 0 halves_exactly = true.
Proof. vm_compute. reflexivity. Qed.

Lemma average_of_two invalid s :
  0 <= s < 2 ^ 17 -> average invalid s 2 = s / 2.
Proof.
  intros Hs.
  pose proof (forall_range_spec 17 halves_exactly 0 halves_exactly_all s Hs)
    as H.
  unfold halves_exactly in H. unfold average, to_int.
  destruct (trunc _) as [r | ]; [ | discriminate].
  apply Z.eqb_eq in H. subst r.
  assert (Hr : Int.in_range (s / 2) = true).
  { unfold Int.in_range, Int.INT_MIN, Int.INT_MAX.
    assert (0 <= s / 2 < 2 ^ 17).
    { split; [apply Z.div_pos; lia | apply Z.div_lt_upper_bound; lia]. }
    apply andb_true_iff. split; apply Z.leb_le; lia. }
  now rewrite Hr.
Qed.

(** C1 (fails on the code): [loop] has no branch for a reading without
    touch.  The division of line 90 is then [0/0], its NaN is converted
    to [int], and the globals are overwritten with the normalised
    result: whatever integer the conversion leaves, the published
    state after the cycle does not depend on the state before it.  On
    the board a centre touch publishes (0.5, 0.5, 0.5) and the next
    cycle without touch replaces it by (0, 0, 0). *)
Theorem loop_no_touch_overwrites :
  floor (one * of_int 0 / of_int 0)%f32 = S754_nan /\
  ControlState (loop_iteration arm_invalid centre_touch globals_init)
    = (half, half, half) /\
  ControlState (loop_iteration arm_invalid no_touch
                  (loop_iteration arm_invalid centre_touch globals_init))
    = (zero, zero, zero) /\
  forall invalid g g',
    ControlState (loop_iteration invalid no_touch g)
    = ControlState (loop_iteration invalid no_touch g').
Proof.
  split; [vm_compute; reflexivity | ].
  split; [vm_compute; reflexivity | ].
  split; [vm_compute; reflexivity | ].
  intros invalid g g'. reflexivity.
Qed.

(** C2 as stated, at two touches at locations 1 and 2: the raw
    aggregated location is not their arithmetic mean 3/2. *)
Lemma two_touch_mean_not_exact :
  ~ Qeq (inject_Z (fst (aggregateVertical arm_invalid
                          {| touches := [(1, 10); (2, 10)];
                             horizontalTouches := [] |})))
        (Qmake (1 + 2) 2).
Proof. vm_compute. intros H. discriminate H. Qed.

(** C2 (amended): with exactly two touched slots, at 16-bit locations
    [L1] and [L2], the raw aggregated location is the arithmetic mean
    rounded down to an integer, [floor((L1+L2)/2)]. *)
Theorem two_touch_average_floor invalid t L1 S1 L2 S2 :
  List.filter active (touches t) = [(L1, S1); (L2, S2)] ->
  0 <= L1 <= 65535 -> 0 <= L2 <= 65535 ->
  fst (aggregateVertical invalid t) = (L1 + L2) / 2.
Proof.
  intros Hact H1 H2. unfold aggregateVertical.
  rewrite fold_accumulate_active, Hact.
  assert (Ha : active (L1, S1) = true /\ active (L2, S2) = true).
  { assert (Hin : Forall (fun x => active x = true) [(L1, S1); (L2, S2)]).
    { rewrite <- Hact. apply List.Forall_forall. intros x Hx.
      apply List.filter_In in Hx. tauto. }
    inversion Hin as [ | ? ? Hx1 Hin']. inversion Hin' as [ | ? ? Hx2 ?].
    tauto. }
  destruct Ha as [Ha1 Ha2].
  cbn [fold_left].
  rewrite (accumulate_active _ _ _ _ Ha1), (accumulate_active _ _ _ _ Ha2).
  cbn [fst snd]. unfold Int.add.
  rewrite !Z.add_0_l.
  rewrite (wrap_small L1), (wrap_small (L1 + L2)), (wrap_small 1),
    (wrap_small (1 + 1)) by (unfold Int.INT_MIN, Int.INT_MAX; lia).
  cbn [fst]. change (1 + 1) with 2.
  apply average_of_two. lia.
Qed.

Lemma two_touch_average_floor_witness :
  fst (aggregateVertical arm_invalid
         {| touches := [(1, 10); (0, 7); (2, 10)]; horizontalTouches := [] |})
  = (1 + 2) / 2.
Proof.
  apply (two_touch_average_floor arm_invalid _ 1 10 2 10);
    [reflexivity | lia | lia].
Defined.

(** C3: after every poll cycle, following any sequence of earlier
    cycles and for any sensor reading, the published vertical position,
    horizontal position and size all lie in [[0,1]]; this holds for
    every integer the target may leave when line 90 converts a NaN. *)
Theorem loop_publishes_unit_interval invalid reads t g :
  published_in_unit (loop_iteration invalid t (loop invalid reads g)) = true.
Proof.
  generalize (loop invalid reads g). intros g0.
  unfold loop_iteration.
  destruct (aggregateVertical invalid t) as [avgLocation avgSize].
  unfold published_in_unit, ControlState.
  cbn [gTouchPosition gTouchSize fst snd].
  rewrite !andb_true_iff. repeat split.
  - eapply normalised_in_unit; [vm_compute; reflexivity | reflexivity].
  - eapply normalised_in_unit; [vm_compute; reflexivity | reflexivity].
  - eapply normalised_in_unit;
      [vm_compute; reflexivity | vm_compute; reflexivity].
Qed.

End LoopFacts.

(** ** The audio callback *)

Module RenderFacts.

Import F32 TrillPad.

Section Render.

Context `{Dsp : DspLibrary}.

(** C7: in every rendered frame the gains are [gainL = 1 - pan] and
    [gainR = pan] for the smoothed pan value of that frame; pan 0
    gives (1, 0), pan 1 gives (0, 1) and pan 0.5 gives (0.5, 0.5). *)
Theorem render_frame_gains n context (p : Patch) :
  let panning := panning_of p in
  let g := globals (snd (render_frame n (context, p))) in
  (gAmpL g, gAmpR g) = (sub (of_int 1) panning, panning) /\
  pan_gains (of_int 0) = (of_int 1, of_int 0) /\
  pan_gains (of_int 1) = (of_int 0, of_int 1) /\
  pan_gains half = (half, half).
Proof.
  split; [ | repeat split; vm_compute; reflexivity].
  unfold render_frame, panning_of, pan_gains.
  destruct (OnePole_process (freqFilt p) _) as [freqFilt' frequency].
  destruct (OnePole_process (panFilt p) _) as [panFilt' panning].
  destruct (OnePole_process (ampFilt p) _) as [ampFilt' amplitude].
  destruct (Oscillator_process _) as [osc'' sample].
  reflexivity.
Qed.

(** Running the body of the channel loop over any channel numbers
    below the channel count changes no slot other than channels 0 and
    1 of frame [n]. *)
Lemma write_channels_fold n ampL ampR out i channels : forall context,
  (forall ch, (ch < 2)%nat -> (ch < audioOutChannels context)%nat ->
              i <> (n * audioOutChannels context + ch)%nat) ->
  Forall (fun ch => (ch < audioOutChannels context)%nat) channels ->
  let context' :=
    fold_left
      (fun context channel =>
         if (channel =? 0)%nat
         then audioWrite context n channel (mul ampL out)
         else if (channel =? 1)%nat
              then audioWrite context n channel (mul ampR out)
              else context)
      channels context in
  audioOutChannels context' = audioOutChannels context /\
  audioFrames context' = audioFrames context /\
  audioOut context' !! i = audioOut context !! i.
Proof.
  induction channels as [ | ch channels IH]; intros context Hi Hall;
    [easy | ].
  apply Forall_cons in Hall as [Hch Hall].
  cbn [fold_left].
  set (context1 := if (ch =? 0)%nat then _ else _).
  assert (H1 : audioOutChannels context1 = audioOutChannels context /\
               audioFrames context1 = audioFrames context /\
               audioOut context1 !! i = audioOut context !! i).
  { subst context1.
    destruct (Nat.eqb_spec ch 0) as [-> | H0].
    - repeat split. cbn [audioWrite audioOut].
      apply list_lookup_insert_ne. intros E. apply (Hi 0%nat); lia.
    - destruct (Nat.eqb_spec ch 1) as [-> | H1]; [ | easy].
      repeat split. cbn [audioWrite audioOut].
      apply list_lookup_insert_ne. intros E. apply (Hi 1%nat); lia. }
  destruct H1 as (Hc1 & Hf1 & Ho1).
  specialize (IH context1). cbv zeta in IH. rewrite Hc1 in IH.
  destruct (IH Hi Hall) as (Hc & Hf & Ho).
  cbv zeta. rewrite Hc, Hf, Ho. easy.
Qed.

Lemma write_channels_other n ampL ampR out context i :
  (forall ch, (ch < 2)%nat -> (ch < audioOutChannels context)%nat ->
              i <> (n * audioOutChannels context + ch)%nat) ->
  let context' := write_channels n ampL ampR out context in
  audioOutChannels context' = audioOutChannels context /\
  audioFrames context' = audioFrames context /\
  audioOut context' !! i = audioOut context !! i.
Proof.
  intros Hi. unfold write_channels.
  apply write_channels_fold; trivial.
  apply Forall_forall. intros ch Hch.
  apply elem_of_seq in Hch. lia.
Qed.

Lemma render_frame_other n context (p : Patch) i :
  (forall ch, (ch < 2)%nat -> (ch < audioOutChannels context)%nat ->
              i <> (n * audioOutChannels context + ch)%nat) ->
  let context' := fst (render_frame n (context, p)) in
  audioOutChannels context' = audioOutChannels context /\
  audioFrames context' = audioFrames context /\
  audioOut context' !! i = audioOut context !! i.
Proof.
  intros Hi. unfold render_frame.
  destruct (OnePole_process (freqFilt p) _) as [freqFilt' frequency].
  destruct (OnePole_process (panFilt p) _) as [panFilt' panning].
  destruct (pan_gains panning) as [ampL ampR].
  destruct (OnePole_process (ampFilt p) _) as [ampFilt' amplitude].
  destruct (Oscillator_process _) as [osc'' sample].
  cbn [fst]. apply write_channels_other. exact Hi.
Qed.

Lemma render_frames_other frames i : forall context (p : Patch),
  (forall n ch, (ch < 2)%nat -> (ch < audioOutChannels context)%nat ->
                i <> (n * audioOutChannels context + ch)%nat) ->
  let context' :=
    fst (fold_left (fun s n => render_frame n s) frames (context, p)) in
  audioOutChannels context' = audioOutChannels context /\
  audioOut context' !! i = audioOut context !! i.
Proof.
  induction frames as [ | n frames IH]; intros context p Hi; [easy | ].
  cbn [fold_left].
  destruct (render_frame_other n context p i (Hi n)) as (Hc & _ & Ho).
  destruct (render_frame n (context, p)) as [context1 p1].
  cbn [fst] in Hc, Ho.
  specialize (IH context1 p1). cbv zeta in IH. rewrite Hc in IH.
  destruct (IH Hi) as (Hc' & Ho').
  cbv zeta. rewrite Hc', Ho'. easy.
Qed.

(** C8: [render] leaves every output channel of index above 1
    untouched: in every frame, the slot of such a channel holds after
    the block what it held before. *)
Theorem render_leaves_other_channels context (p : Patch) n channel :
  (1 < channel)%nat -> (channel < audioOutChannels context)%nat ->
  audioOut (fst (render context p))
    !! (n * audioOutChannels context + channel)%nat
  = audioOut context !! (n * audioOutChannels context + channel)%nat.
Proof.
  intros H1 Hc. unfold render.
  apply render_frames_other.
  intros n' ch Hch Hch' E.
  apply (f_equal (fun k => k mod audioOutChannels context)%nat) in E.
  rewrite !(Nat.add_comm (_ * _)), !Nat.Div0.mod_add in E.
  rewrite !Nat.mod_small in E by lia. lia.
Qed.

End Render.

Lemma render_leaves_other_channels_witness :
  audioOut (fst (render three_channel_block passthrough_patch))
    !! (1 * audioOutChannels three_channel_block + 2)%nat
  = audioOut three_channel_block
      !! (1 * audioOutChannels three_channel_block + 2)%nat.
Proof.
  apply (render_leaves_other_channels three_channel_block
           passthrough_patch 1 2); simpl; lia.
Defined.

End RenderFacts.

(** ** The parameter smoother *)

Module SmootherFacts.

Import Smoother.
Local Open Scope R_scope.

(** C5: for every state [y] and coefficient [a], [process] called with
    the input [y] returns [y] and leaves the filter as it was. *)
Theorem process_fixed_point (f : OnePole) : process f (y f) = (f, y f).
Proof.
  unfold process. destruct f as [a0 y0]. cbn [a y].
  replace (y0 + a0 * (y0 - y0)) with y0 by ring. reflexivity.
Qed.

(** The same fixed point in [float] arithmetic, for a finite coefficient
    and a finite state other than zero. *)
Lemma process32_fixed_point c s m e :
  F32.is_finite c = true ->
  process32 c (S754_finite s m e) (S754_finite s m e) = S754_finite s m e.
Proof.
  intros Hc. unfold process32.
  assert (Hd : F32.sub (S754_finite s m e) (S754_finite s m e)
               = S754_zero false).
  { unfold F32.sub, SFsub. rewrite Z.sub_diag. reflexivity. }
  rewrite Hd.
  destruct c as [sc | sc | | sc mc ec]; try discriminate Hc; reflexivity.
Qed.

(** A positive cutoff below the Nyquist rate gives a coefficient
    strictly between 0 and 1. *)
Lemma setup_coefficient fc fs :
  0 < fc -> fc < fs / 2 -> 0 < a (setup fc fs) < 1.
Proof.
  intros Hc Hn. cbn [setup a].
  assert (Hs : 0 < fs) by lra.
  assert (Ht : 0 < 2 * PI * fc / fs).
  { apply Rdiv_lt_0_compat; trivial.
    apply Rmult_lt_0_compat; trivial.
    pose proof PI_RGT_0. lra. }
  pose proof (exp_pos (- (2 * PI * fc / fs))) as Hp.
  assert (He : exp (- (2 * PI * fc / fs)) < 1).
  { rewrite <- exp_0. apply exp_increasing. lra. }
  lra.
Qed.

Lemma hold_a f x n : a (hold f x n) = a f.
Proof. induction n as [ | n IH]; [reflexivity | exact IH]. Qed.

(** The distance to the input shrinks by the factor [1 - a] per call. *)
Lemma hold_y f x n : y (hold f x n) - x = (y f - x) * (1 - a f) ^ n.
Proof.
  induction n as [ | n IH].
  - simpl. ring.
  - cbn [hold process fst y]. rewrite hold_a.
    replace (y (hold f x n) + a f * (x - y (hold f x n)) - x)
      with ((y (hold f x n) - x) * (1 - a f)) by ring.
    rewrite IH. simpl. ring.
Qed.

Lemma output_closed_form f x n :
  output f x n = x + (y f - x) * (1 - a f) ^ S n.
Proof.
  change (output f x n) with (y (hold f x (S n))).
  pose proof (hold_y f x (S n)) as H. lra.
Qed.

Lemma pow_unit_interval q n : 0 < q < 1 -> 0 < q ^ n <= 1.
Proof.
  intros Hq. induction n as [ | n IH]; simpl; [lra | ].
  destruct IH as [IH1 IH2].
  assert (0 < q * q ^ n) by (apply Rmult_lt_0_compat; lra).
  assert (0 <= (1 - q) * q ^ n) by (apply Rmult_le_pos; lra).
  split; lra.
Qed.

Lemma below_target y0 x t :
  0 < t <= 1 -> y0 <= x -> y0 <= x + (y0 - x) * t <= x.
Proof.
  intros Ht Hle.
  assert (0 <= (x - y0) * (1 - t)) by (apply Rmult_le_pos; lra).
  assert (0 <= (x - y0) * t) by (apply Rmult_le_pos; lra).
  split; lra.
Qed.

Lemma above_target y0 x t :
  0 < t <= 1 -> x <= y0 -> x <= x + (y0 - x) * t <= y0.
Proof.
  intros Ht Hle.
  assert (0 <= (y0 - x) * (1 - t)) by (apply Rmult_le_pos; lra).
  assert (0 <= (y0 - x) * t) by (apply Rmult_le_pos; lra).
  split; lra.
Qed.

Lemma below_closer y0 x q t :
  0 < q < 1 -> 0 < t <= 1 -> y0 <= x ->
  x + (y0 - x) * t <= x + (y0 - x) * (q * t).
Proof.
  intros Hq Ht Hle.
  assert (0 <= (x - y0) * ((1 - q) * t)).
  { apply Rmult_le_pos; [lra | apply Rmult_le_pos; lra]. }
  lra.
Qed.

Lemma above_closer y0 x q t :
  0 < q < 1 -> 0 < t <= 1 -> x <= y0 ->
  x + (y0 - x) * (q * t) <= x + (y0 - x) * t.
Proof.
  intros Hq Ht Hle.
  assert (0 <= (y0 - x) * ((1 - q) * t)).
  { apply Rmult_le_pos; [lra | apply Rmult_le_pos; lra]. }
  lra.
Qed.

(** C6: with the coefficient that [setup] computes from a positive
    cutoff below the Nyquist rate, and from any state [y0], the outputs
    for a constant input [x] are monotonic (rising while below [x],
    falling while above), never pass to the far side of [x], and
    converge to [x]. *)
Theorem smoother_step_response fc fs y0 x :
  0 < fc -> fc < fs / 2 ->
  let f := {| a := a (setup fc fs); y := y0 |} in
  (y0 <= x ->
   y0 <= output f x 0 /\
   forall n, output f x n <= output f x (S n) /\ output f x n <= x) /\
  (x <= y0 ->
   output f x 0 <= y0 /\
   forall n, output f x (S n) <= output f x n /\ x <= output f x n) /\
  Un_cv (output f x) x.
Proof.
  intros Hc Hn f.
  pose proof (setup_coefficient fc fs Hc Hn) as Ha.
  set (q := 1 - a f).
  assert (Hq : 0 < q < 1) by (subst q f; cbn [a]; lra).
  assert (Hout : forall n, output f x n = x + (y0 - x) * q ^ S n).
  { intros n. apply (output_closed_form f x n). }
  assert (Hstep : forall n, q ^ S (S n) = q * q ^ S n)
    by (intros; reflexivity).
  assert (Hpow : forall n, 0 < q ^ n <= 1)
    by (intros n; apply pow_unit_interval; exact Hq).
  clearbody q. clear Ha.
  split; [ | split].
  - intros Hle. split; [ | intros n; split].
    + rewrite Hout. apply below_target; trivial.
    + rewrite !Hout, Hstep. apply below_closer; trivial.
    + rewrite Hout. apply below_target; trivial.
  - intros Hle. split; [ | intros n; split].
    + rewrite Hout. apply above_target; trivial.
    + rewrite !Hout, Hstep. apply above_closer; trivial.
    + rewrite Hout. apply above_target; trivial.
  - intros eps Heps.
    destruct (Req_dec y0 x) as [Heq | Hne].
    + exists 0%nat. intros n _. unfold R_dist. rewrite Hout, Heq.
      replace (x + (x - x) * q ^ S n - x) with 0 by ring.
      rewrite Rabs_R0. lra.
    + assert (Hd : 0 < Rabs (y0 - x)) by (apply Rabs_pos_lt; lra).
      assert (Hq' : Rabs q < 1) by (rewrite Rabs_pos_eq; lra).
      destruct (pow_lt_1_zero q Hq' (eps / Rabs (y0 - x))
                  (Rdiv_lt_0_compat _ _ Heps Hd)) as [N HN].
      exists N. intros n Hge. unfold R_dist. rewrite Hout.
      replace (x + (y0 - x) * q ^ S n - x) with ((y0 - x) * q ^ S n)
        by ring.
      rewrite Rabs_mult.
      specialize (HN (S n) ltac:(lia)).
      apply (Rmult_lt_compat_l (Rabs (y0 - x))) in HN; trivial.
      replace (Rabs (y0 - x) * (eps / Rabs (y0 - x))) with eps in HN
        by (field; lra).
      exact HN.
Qed.

Lemma smoother_step_response_witness :
  let f := {| a := a (setup 1 44100); y := 0 |} in
  (0 <= 1 ->
   0 <= output f 1 0 /\
   forall n, output f 1 n <= output f 1 (S n) /\ output f 1 n <= 1) /\
  (1 <= 0 ->
   output f 1 0 <= 0 /\
   forall n, output f 1 (S n) <= output f 1 n /\ 1 <= output f 1 n) /\
  Un_cv (output f 1) 1.
Proof. apply (smoother_step_response 1 44100 0 1); lra. Defined.

End SmootherFacts.

(** ** The sample loader *)

Module SamplesFacts.

Import Samples.

Section Environment.

Variable sf_open : string -> option SNDFILE.
Variable heap_has : Z -> bool.
Variable fresh : nat -> F32.float32.

(** C9: for a file that opens with a channel count other than 1,
    [initFile] returns a code other than 0, the caller's [SampleData]
    (buffer pointer included) is what it was, and no buffer was
    allocated. *)
Theorem initFile_rejects_non_mono file sndfile smp w :
  sf_open file = Some sndfile ->
  channels (info sndfile) <> 1 ->
  exists ret w',
    initFile sf_open heap_has fresh file smp w = Ok ret w' /\
    ret <> 0 /\
    mem w' = mem w /\
    List.filter is_New (trace w') = List.filter is_New (trace w).
Proof.
  intros Hopen Hchan. unfold initFile. rewrite Hopen.
  apply Z.eqb_neq in Hchan. rewrite Hchan. cbn [negb].
  eexists _, _. split; [reflexivity | ]. cbn [mem trace].
  split; [lia | ]. split; [reflexivity | ].
  rewrite List.filter_app. cbn. apply app_nil_r.
Qed.

Lemma quiet_ret {A} (v : A) : quiet (mret v).
Proof. intros w Hw. exact Hw. Qed.

Lemma quiet_bind {A B} (c : M A) (k : A -> M B) :
  quiet c -> (forall v, quiet (k v)) -> quiet (c ≫= k).
Proof.
  intros Hc Hk w Hw. unfold mbind, M_bind.
  specialize (Hc w Hw).
  destruct (c w) as [v w' | w' | ]; trivial.
  apply Hk, Hc.
Qed.

Lemma quiet_load smp : quiet (load smp).
Proof.
  intros w Hw. unfold load.
  destruct smp as [ | p]; trivial.
  destruct (mem w !! p); trivial.
Qed.

Lemma quiet_store smp d : quiet (store smp d).
Proof.
  intros w Hw. unfold store.
  destruct smp as [ | p]; trivial.
  destruct (mem w !! p); trivial.
Qed.

Lemma quiet_emit e : e <> alloc_message -> quiet (emit e).
Proof.
  intros He w Hw. unfold emit, quiet_world. cbn [trace].
  rewrite in_app_iff. intros [H | [H | []]]; [exact (Hw H) | ].
  exact (He H).
Qed.

Lemma quiet_cout line :
  line <> "Could not allocate buffer"%string -> quiet (cout line).
Proof.
  intros Hl. apply (quiet_emit (Cout line)).
  unfold alloc_message. intros [= E]. exact (Hl E).
Qed.

Lemma quiet_new_float n : quiet (new_float heap_has fresh n).
Proof.
  intros w Hw. unfold new_float.
  destruct ((0 <=? n) && heap_has n); trivial.
  unfold quiet_world. cbn [trace].
  rewrite in_app_iff. intros [H | [H | []]]; [exact (Hw H) | ].
  discriminate H.
Qed.

(** With a pointer that is not null, the test [smp == NULL] after the
    allocation fails on every path that reaches it. *)
Lemma initFile_quiet file smp :
  smp <> NULL -> quiet (initFile sf_open heap_has fresh file smp).
Proof.
  intros Hsmp. unfold initFile.
  destruct (sf_open file) as [sndfile | ].
  2: { apply quiet_bind; [ | intros; apply quiet_ret].
       apply quiet_cout. discriminate. }
  destruct (negb (channels (info sndfile) =? 1)).
  { apply quiet_bind; [ | intros; apply quiet_ret].
    apply quiet_cout. discriminate. }
  apply quiet_bind; [apply quiet_load | intros d0].
  apply quiet_bind; [apply quiet_store | intros _].
  apply quiet_bind; [apply quiet_load | intros d1].
  apply quiet_bind; [apply quiet_new_float | intros block].
  apply quiet_bind; [apply quiet_store | intros _].
  destruct smp as [ | p]; [congruence | ]. cbn [is_null].
  apply quiet_bind; [apply quiet_load | intros d2].
  destruct (sf_read_float _ _ _) as [readcount buf].
  apply quiet_bind; [apply quiet_store | intros _].
  apply quiet_bind.
  { destruct (_ || _); [ | apply quiet_ret].
    apply quiet_bind; [apply quiet_emit; discriminate | intros _].
    apply quiet_bind; [apply quiet_load | intros d3].
    apply quiet_store. }
  intros _.
  apply quiet_bind; [apply quiet_emit; discriminate | intros _].
  apply quiet_ret.
Qed.

(** C10: called with a pointer that is not null, [initFile] never
    enters the branch that prints "Could not allocate buffer": its
    test looks at the caller's pointer, not at the fresh buffer. *)
Theorem allocation_check_unreachable file smp w :
  smp <> NULL ->
  ~ In alloc_message (trace w) ->
  ~ In alloc_message
      (trace_of (initFile sf_open heap_has fresh file smp w)).
Proof.
  intros Hsmp Hw.
  pose proof (initFile_quiet file smp Hsmp w Hw) as H.
  destruct (initFile sf_open heap_has fresh file smp w) as [v w' | w' | ];
    cbn [trace_of]; trivial.
  intros [].
Qed.

(** When the heap cannot serve the request, [initFile] is left by the
    exception of [new]: nothing is printed and no code is returned. *)
Lemma initFile_allocation_failure file sndfile p d w :
  sf_open file = Some sndfile ->
  channels (info sndfile) = 1 ->
  mem w !! p = Some d ->
  heap_has (Int.wrap (frames (info sndfile) * 1)) = false ->
  exists w',
    initFile sf_open heap_has fresh file (Ptr p) w = Throw w' /\
    trace w' = trace w.
Proof.
  intros Hopen Hchan Hp Hheap. unfold initFile.
  rewrite Hopen, Hchan. cbn [Z.eqb Pos.eqb negb].
  unfold mbind, M_bind, load, store, new_float.
  repeat first [ rewrite Hp | rewrite lookup_insert_eq
               | progress cbn [mem trace sampleLen] ].
  rewrite Hheap, andb_false_r.
  eexists. split; reflexivity.
Qed.

End Environment.

Lemma initFile_rejects_non_mono_witness :
  exists ret w',
    initFile two_files (fun _ => true) (fun _ => F32.zero)
      "stereo.wav" (Ptr 1) main_world = Ok ret w' /\
    ret <> 0 /\
    mem w' = mem main_world /\
    List.filter is_New (trace w') = List.filter is_New (trace main_world).
Proof.
  apply (initFile_rejects_non_mono two_files (fun _ => true)
           (fun _ => F32.zero) "stereo.wav" stereo_file (Ptr 1) main_world).
  - reflexivity.
  - simpl. lia.
Defined.

Lemma allocation_check_unreachable_witness :
  ~ In alloc_message
      (trace_of (initFile two_files (fun _ => false) (fun _ => F32.zero)
                   "sample.wav" (Ptr 1) main_world)).
Proof.
  apply (allocation_check_unreachable two_files (fun _ => false)
           (fun _ => F32.zero) "sample.wav" (Ptr 1) main_world).
  - discriminate.
  - simpl. tauto.
Defined.

End SamplesFacts.


(** * More of the code *)

(** ** The sensor task, continued *)

Module LoopMore.

Import F32 F32Facts UtilitiesFacts TrillPad PadChecks LoopFacts.


Lemma same_float_eq x y : same_float x y = true -> x = y.
Proof.
  destruct x as [s | s | | s m e], y as [s' | s' | | s' m' e'];
    try discriminate; cbn [same_float]; intros H.
  - apply Bool.eqb_prop in H. now subst.
  - apply Bool.eqb_prop in H. now subst.
  - apply andb_prop in H as [H He]. apply andb_prop in H as [Hs Hm].
    apply Bool.eqb_prop in Hs. apply Pos.eqb_eq in Hm. apply Z.eqb_eq in He.
    now subst.
Qed.

Lemma fold_accumulateHorizontal_active slots : forall acc,
  fold_left accumulateHorizontal slots acc
  = fold_left accumulateHorizontal (List.filter activeHorizontal slots) acc.
Proof.
  induction slots as [ | slot slots IH]; intros acc; [reflexivity | ].
  cbn [fold_left List.filter].
  destruct (activeHorizontal slot) eqn:Ha.
  - cbn [fold_left]. apply IH.
  - rewrite <- IH. f_equal.
    unfold accumulateHorizontal. destruct acc as [l n]. now rewrite Ha.
Qed.

Lemma accumulateHorizontal_active l n loc :
  activeHorizontal loc = true ->
  accumulateHorizontal (l, n) loc = (Int.add l loc, Int.add n 1).
Proof. intros H. unfold accumulateHorizontal. now rewrite H. Qed.

Lemma filter_all_true {A} (f : A -> bool) l l' :
  List.filter f l = l' -> Forall (fun x => f x = true) l'.
Proof.
  intros <-. apply List.Forall_forall. intros x Hx.
  apply List.filter_In in Hx. tauto.
Qed.

Lemma single_exactly_all : forall_range 16 0 single_exactly = true.
Proof. vm_cast_no_check (eq_refl true). Qed.

Lemma in_range_16 s : 0 <= s < 2 ^ 17 -> Int.in_range s = true.
Proof.
  intros H. unfold Int.in_range, Int.INT_MIN, Int.INT_MAX.
  apply andb_true_iff. split; apply Z.leb_le; lia.
Qed.

Lemma average_of_one invalid s :
  0 <= s < 2 ^ 16 -> average invalid s 1 = s.
Proof.
  intros Hs.
  pose proof (forall_range_spec 16 single_exactly 0 single_exactly_all s Hs)
    as H.
  unfold single_exactly in H. unfold average, to_int.
  destruct (trunc _) as [r | ]; [ | discriminate].
  apply Z.eqb_eq in H. subst r.
  rewrite in_range_16 by lia. reflexivity.
Qed.

Lemma average_of_none invalid :
  average invalid 0 0 = Int.wrap (invalid S754_nan).
Proof.
  unfold average.
  replace (floor (one * of_int 0 / of_int 0)%f32) with S754_nan
    by (vm_compute; reflexivity).
  reflexivity.
Qed.

Ltac int_small :=
  rewrite ?Z.add_0_l;
  repeat match goal with
         | |- context [Int.wrap ?z] =>
             rewrite (wrap_small z) by (unfold Int.INT_MIN, Int.INT_MAX; lia)
         end.

Lemma aggregateVertical_single invalid t L S :
  List.filter active (touches t) = [(L, S)] ->
  0 <= L <= 65535 -> 0 <= S <= 65535 ->
  aggregateVertical invalid t = (L, S).
Proof.
  intros Hact HL HS. unfold aggregateVertical.
  rewrite fold_accumulate_active, Hact.
  pose proof (filter_all_true _ _ _ Hact) as Ha.
  inversion Ha as [ | ? ? Ha1 _]. subst.
  cbn [fold_left]. rewrite (accumulate_active _ _ _ _ Ha1).
  cbn [fst snd]. unfold Int.add. int_small.
  rewrite !average_of_one by lia. reflexivity.
Qed.

(** X1: with exactly one touched slot, at a 16-bit location [L] with a
    16-bit size [S], the raw aggregated location and size are [L] and [S]
    themselves; untouched slots around it change nothing. *)
Theorem single_touch_exact invalid t L S :
  List.filter active (touches t) = [(L, S)] ->
  0 <= L <= 65535 -> 0 <= S <= 65535 ->
  aggregateVertical invalid t = (L, S).
Proof. apply aggregateVertical_single. Qed.

Lemma single_touch_exact_witness :
  aggregateVertical arm_invalid
    {| touches := [(0, 9); (896, 3250); (0, 0)]; horizontalTouches := [] |}
  = (896, 3250).
Proof.
  apply (single_touch_exact arm_invalid _ 896 3250); [reflexivity | lia | lia].
Defined.


Lemma filter_filter {A} (f : A -> bool) l :
  List.filter f (List.filter f l) = List.filter f l.
Proof.
  induction l as [ | x l IH]; [reflexivity | ].
  cbn [List.filter]. destruct (f x) eqn:Hx; [ | exact IH].
  cbn [List.filter]. now rewrite Hx, IH.
Qed.

(** X2: a pass of the sensor task publishes the same globals for a
    reading and for that reading without its untouched slots: a slot
    whose location is 0 contributes nothing, its size included. *)
Theorem loop_ignores_untouched_slots invalid t g :
  loop_iteration invalid t g = loop_iteration invalid (touched t) g.
Proof.
  unfold loop_iteration, aggregateVertical, aggregateHorizontal, touched.
  cbn [touches horizontalTouches].
  rewrite (fold_accumulate_active (touches t)).
  rewrite (fold_accumulateHorizontal_active (horizontalTouches t)).
  rewrite (fold_accumulate_active (List.filter _ _)).
  rewrite (fold_accumulateHorizontal_active (List.filter _ _)).
  now rewrite !filter_filter.
Qed.

(** X3: with two touched slots the raw size is [floor((S1+S2)/2)], and
    two touched horizontal slots give the raw horizontal location
    [floor((H1+H2)/2)] (16-bit readings). *)
Theorem two_touch_size_and_horizontal invalid t L1 S1 L2 S2 H1 H2 :
  List.filter active (touches t) = [(L1, S1); (L2, S2)] ->
  List.filter activeHorizontal (horizontalTouches t) = [H1; H2] ->
  0 <= L1 <= 65535 -> 0 <= L2 <= 65535 ->
  0 <= S1 <= 65535 -> 0 <= S2 <= 65535 ->
  0 <= H1 <= 65535 -> 0 <= H2 <= 65535 ->
  snd (aggregateVertical invalid t) = (S1 + S2) / 2 /\
  aggregateHorizontal invalid t = (H1 + H2) / 2.
Proof.
  intros Hact Hhor HL1 HL2 HS1 HS2 HH1 HH2. split.
  - unfold aggregateVertical.
    rewrite fold_accumulate_active, Hact.
    pose proof (filter_all_true _ _ _ Hact) as Ha.
    inversion Ha as [ | ? ? Ha1 Ha']. inversion Ha' as [ | ? ? Ha2 _]. subst.
    cbn [fold_left].
    rewrite (accumulate_active _ _ _ _ Ha1), (accumulate_active _ _ _ _ Ha2).
    cbn [fst snd]. unfold Int.add. int_small.
    change (1 + 1) with 2. apply average_of_two. lia.
  - unfold aggregateHorizontal.
    rewrite fold_accumulateHorizontal_active, Hhor.
    pose proof (filter_all_true _ _ _ Hhor) as Ha.
    inversion Ha as [ | ? ? Ha1 Ha']. inversion Ha' as [ | ? ? Ha2 _]. subst.
    cbn [fold_left].
    rewrite (accumulateHorizontal_active _ _ _ Ha1),
      (accumulateHorizontal_active _ _ _ Ha2).
    unfold Int.add. int_small.
    change (1 + 1) with 2. apply average_of_two. lia.
Qed.

Lemma two_touch_size_and_horizontal_witness :
  snd (aggregateVertical arm_invalid
         {| touches := [(100, 1001); (0, 5); (300, 2000)];
            horizontalTouches := [0; 7; 10] |}) = (1001 + 2000) / 2 /\
  aggregateHorizontal arm_invalid
    {| touches := [(100, 1001); (0, 5); (300, 2000)];
       horizontalTouches := [0; 7; 10] |} = (7 + 10) / 2.
Proof.
  apply (two_touch_size_and_horizontal arm_invalid _ 100 1001 300 2000 7 10);
    first [reflexivity | lia].
Defined.

(** X4: after any sequence of readings, the published vertical position,
    horizontal position and size are those of the last reading alone:
    the sensor task keeps no memory of earlier readings or of the state
    it started from. *)
Theorem loop_publishes_last_reading invalid reads t g g' :
  ControlState (loop invalid (reads ++ [t]) g)
  = ControlState (loop_iteration invalid t g').
Proof.
  unfold loop. rewrite fold_left_app. cbn [fold_left].
  generalize (fold_left (fun g t => loop_iteration invalid t g) reads g).
  intros g0. unfold loop_iteration.
  destruct (aggregateVertical invalid t) as [avgLocation avgSize].
  reflexivity.
Qed.

Lemma loop_iteration_gains invalid t g :
  gAmpL (loop_iteration invalid t g) = gAmpL g /\
  gAmpR (loop_iteration invalid t g) = gAmpR g.
Proof.
  unfold loop_iteration.
  destruct (aggregateVertical invalid t) as [avgLocation avgSize].
  split; reflexivity.
Qed.

(** X5: the sensor task never writes the channel gains [gAmpL], [gAmpR]. *)
Theorem loop_keeps_gains invalid reads : forall g,
  gAmpL (loop invalid reads g) = gAmpL g /\
  gAmpR (loop invalid reads g) = gAmpR g.
Proof.
  induction reads as [ | t reads IH]; intros g; [split; reflexivity | ].
  cbn [loop fold_left].
  destruct (IH (loop_iteration invalid t g)) as [HL HR].
  destruct (loop_iteration_gains invalid t g) as [HL' HR'].
  unfold loop in HL, HR. rewrite HL, HR. now split.
Qed.



Lemma loop_iteration_published invalid t g :
  ControlState (loop_iteration invalid t g)
  = (normalise 0 1792 (fst (aggregateVertical invalid t)),
     normalise 0 1792 (aggregateHorizontal invalid t),
     normalise 500 6000 (snd (aggregateVertical invalid t))).
Proof.
  unfold loop_iteration.
  destruct (aggregateVertical invalid t) as [avgLocation avgSize].
  reflexivity.
Qed.

Lemma aggregateHorizontal_single invalid t H :
  List.filter activeHorizontal (horizontalTouches t) = [H] ->
  0 <= H <= 65535 ->
  aggregateHorizontal invalid t = H.
Proof.
  intros Hhor HH. unfold aggregateHorizontal.
  rewrite fold_accumulateHorizontal_active, Hhor.
  pose proof (filter_all_true _ _ _ Hhor) as Ha.
  inversion Ha as [ | ? ? Ha1 _]. subst.
  cbn [fold_left]. rewrite (accumulateHorizontal_active _ _ _ Ha1).
  unfold Int.add. int_small. apply average_of_one. lia.
Qed.



Lemma leb_finite_spec m1 e1 m2 e2 :
  leb (S754_finite false m1 e1) (S754_finite false m2 e2) = true <->
  e1 < e2 \/ (e1 = e2 /\ (m1 <= m2)%positive).
Proof.
  unfold leb, SFleb, SFcompare.
  change (Pos.compare_cont Eq m1 m2) with (Pos.compare m1 m2).
  destruct (Z.compare_spec e1 e2) as [He | He | He];
    [destruct (Pos.compare_spec m1 m2) as [Hm | Hm | Hm] | | ];
    split; intros H; try discriminate H; try reflexivity; try lia.
Qed.

Lemma leb_nonneg_trans x y z :
  nonneg_finite x = true -> nonneg_finite y = true -> nonneg_finite z = true ->
  leb x y = true -> leb y z = true -> leb x z = true.
Proof.
  intros Hx Hy Hz.
  destruct x as [sx | sx | | [ | ] mx ex]; try discriminate Hx;
    destruct y as [sy | sy | | [ | ] my ey]; try discriminate Hy;
    destruct z as [sz | sz | | [ | ] mz ez]; try discriminate Hz;
    try reflexivity; try (intros H; discriminate H);
    try (intros _ H; discriminate H).
  rewrite !leb_finite_spec. lia.
Qed.

Lemma leb_nonneg_refl x : nonneg_finite x = true -> leb x x = true.
Proof.
  destruct x as [sx | sx | | [ | ] mx ex]; try discriminate; intros _.
  - reflexivity.
  - apply leb_finite_spec. lia.
Qed.

Lemma in_unit_nonneg x : in_unit x = true -> nonneg_finite x = true.
Proof.
  unfold in_unit. rewrite one_eq. intros H. apply andb_prop in H as [H0 H1].
  destruct x as [sx | [ | ] | | [ | ] mx ex]; try reflexivity;
    try discriminate H0; try discriminate H1.
Qed.

Lemma normalise_nonneg lo hi raw s m e :
  sub (of_int hi) (of_int lo) = S754_finite s m e ->
  is_finite (of_int lo) = true ->
  nonneg_finite (normalise lo hi raw) = true.
Proof.
  intros Hr Hlo. apply in_unit_nonneg.
  exact (normalised_in_unit raw lo hi s m e Hr Hlo).
Qed.

Lemma nondecreasing_spec f n : forall z prev,
  nondecreasing f n z prev = true ->
  forall i, z <= i < z + Z.of_nat n - 1 -> leb (f i) (f (i + 1)) = true.
Proof.
  induction n as [ | n IH]; intros z prev H i Hi; [lia | ].
  cbn [nondecreasing] in H. cbv zeta in H.
  apply andb_prop in H as [_ H].
  destruct (Z.eq_dec i z) as [-> | Hne].
  - destruct n as [ | n]; [lia | ].
    cbn [nondecreasing] in H. cbv zeta in H.
    apply andb_prop in H as [H _]. exact H.
  - apply (IH (z + 1) (f z) H). lia.
Qed.

(** From steps to any two points, for a function into the nonnegative
    finite numbers. *)
Lemma steps_monotone f lo hi :
  (forall i, nonneg_finite (f i) = true) ->
  (forall i, lo <= i < hi -> leb (f i) (f (i + 1)) = true) ->
  forall a b, lo <= a <= b -> b <= hi -> leb (f a) (f b) = true.
Proof.
  intros Hpos Hstep a b Hab Hb.
  replace b with (a + Z.of_nat (Z.to_nat (b - a))) by lia.
  assert (Hk : a + Z.of_nat (Z.to_nat (b - a)) <= hi) by lia.
  induction (Z.to_nat (b - a)) as [ | k IH].
  - rewrite Z.add_0_r. apply leb_nonneg_refl, Hpos.
  - rewrite Nat2Z.inj_succ in *.
    apply (leb_nonneg_trans _ (f (a + Z.of_nat k))); try apply Hpos.
    + apply IH. lia.
    + replace (a + Z.succ (Z.of_nat k)) with (a + Z.of_nat k + 1) by lia.
      apply Hstep. lia.
Qed.

Lemma size_steps :
  nondecreasing (normalise 500 6000) (Z.to_nat 65536) 0 zero = true.
Proof. vm_cast_no_check (eq_refl true). Qed.

Lemma location_steps :
  nondecreasing (normalise 0 1792) (Z.to_nat 65536) 0 zero = true.
Proof. vm_cast_no_check (eq_refl true). Qed.

Lemma normalise_size_monotone a b :
  0 <= a <= b -> b <= 65535 ->
  leb (normalise 500 6000 a) (normalise 500 6000 b) = true.
Proof.
  apply steps_monotone.
  - intros i. eapply normalise_nonneg; vm_compute; reflexivity.
  - intros i Hi. apply (nondecreasing_spec _ _ _ _ size_steps).
    rewrite Z2Nat.id; lia.
Qed.

Lemma normalise_location_monotone a b :
  0 <= a <= b -> b <= 65535 ->
  leb (normalise 0 1792 a) (normalise 0 1792 b) = true.
Proof.
  apply steps_monotone.
  - intros i. eapply normalise_nonneg; vm_compute; reflexivity.
  - intros i Hi. apply (nondecreasing_spec _ _ _ _ location_steps).
    rewrite Z2Nat.id; lia.
Qed.

Lemma size_low_all : forall_range 9 0 size_saturates = true.
Proof. vm_cast_no_check (eq_refl true). Qed.

Lemma normalise_size_low raw :
  0 <= raw <= 500 -> normalise 500 6000 raw = zero.
Proof.
  intros H.
  pose proof (forall_range_spec 9 _ 0 size_low_all raw ltac:(lia)) as Hc.
  unfold size_saturates in Hc.
  destruct (Z.leb_spec raw 500); [ | lia].
  now apply same_float_eq.
Qed.

(** A number of [[0,1]] that is not below 1 is 1. *)
Lemma in_unit_top x : in_unit x = true -> leb one x = true -> x = one.
Proof.
  unfold in_unit. rewrite one_eq. intros H Hge.
  apply andb_prop in H as [_ Hle].
  destruct x as [sx | [ | ] | | [ | ] mx ex]; try discriminate Hge;
    try discriminate Hle.
  apply leb_finite_spec in Hge, Hle.
  destruct Hge as [Hg | [Hg Hgm]], Hle as [Hl | [Hl Hlm]].
  - elim (Z.lt_asymm _ _ Hg Hl).
  - subst ex. elim (Z.lt_irrefl _ Hg).
  - subst ex. elim (Z.lt_irrefl _ Hl).
  - subst ex. f_equal. apply Pos.le_antisym; assumption.
Qed.

Lemma normalise_in_unit lo hi raw s m e :
  sub (of_int hi) (of_int lo) = S754_finite s m e ->
  is_finite (of_int lo) = true ->
  in_unit (normalise lo hi raw) = true.
Proof. intros Hr Hlo. exact (normalised_in_unit raw lo hi s m e Hr Hlo). Qed.

Lemma normalise_size_high raw :
  6000 <= raw <= 65535 -> normalise 500 6000 raw = one.
Proof.
  intros H. apply in_unit_top.
  - eapply normalise_in_unit; vm_compute; reflexivity.
  - replace one with (normalise 500 6000 6000) by (vm_compute; reflexivity).
    apply normalise_size_monotone; lia.
Qed.

Lemma normalise_location_high raw :
  1792 <= raw <= 65535 -> normalise 0 1792 raw = one.
Proof.
  intros H. apply in_unit_top.
  - eapply normalise_in_unit; vm_compute; reflexivity.
  - replace one with (normalise 0 1792 1792) by (vm_compute; reflexivity).
    apply normalise_location_monotone; lia.
Qed.

(** X6: a single touch of size up to 500 publishes size 0, one of size
    6000 or more publishes size 1 (16-bit readings). *)
Theorem single_touch_size_saturates invalid t L S g :
  List.filter active (touches t) = [(L, S)] ->
  0 <= L <= 65535 -> 0 <= S <= 65535 ->
  (S <= 500 -> gTouchSize (loop_iteration invalid t g) = zero) /\
  (6000 <= S -> gTouchSize (loop_iteration invalid t g) = one).
Proof.
  intros Hact HL HS.
  pose proof (loop_iteration_published invalid t g) as Hp.
  rewrite (aggregateVertical_single invalid t L S Hact HL HS) in Hp.
  unfold ControlState in Hp. injection Hp as _ _ Hsize. cbn [snd] in Hsize.
  rewrite Hsize. split; intros Hb.
  - apply normalise_size_low. lia.
  - apply normalise_size_high. lia.
Qed.

Lemma single_touch_size_saturates_witness :
  gTouchSize
    (loop_iteration arm_invalid
       {| touches := [(896, 400)]; horizontalTouches := [896] |}
       (loop_iteration arm_invalid centre_touch globals_init)) = zero /\
  gTouchSize
    (loop_iteration arm_invalid
       {| touches := [(0, 0); (896, 7000)]; horizontalTouches := [896] |}
       globals_init) = one.
Proof.
  split.
  - refine (proj1 (single_touch_size_saturates arm_invalid
                     {| touches := [(896, 400)]; horizontalTouches := [896] |}
                     896 400 _ _ _ _) _);
      first [reflexivity | lia].
  - refine (proj2 (single_touch_size_saturates arm_invalid
                     {| touches := [(0, 0); (896, 7000)];
                        horizontalTouches := [896] |}
                     896 7000 _ _ _ _) _);
      first [reflexivity | lia].
Defined.

(** X7: a single touch at a vertical location of 1792 or more and a
    horizontal location of 1792 or more publishes position (1, 1)
    (16-bit readings). *)
Theorem single_touch_position_saturates invalid t L S H g :
  List.filter active (touches t) = [(L, S)] ->
  List.filter activeHorizontal (horizontalTouches t) = [H] ->
  1792 <= L <= 65535 -> 0 <= S <= 65535 -> 1792 <= H <= 65535 ->
  gTouchPosition (loop_iteration invalid t g) = (one, one).
Proof.
  intros Hact Hhor HL HS HH.
  pose proof (loop_iteration_published invalid t g) as Hp.
  rewrite (aggregateVertical_single invalid t L S Hact ltac:(lia) HS) in Hp.
  rewrite (aggregateHorizontal_single invalid t H Hhor ltac:(lia)) in Hp.
  unfold ControlState in Hp. injection Hp as Hv Hh _. cbn [fst] in Hv.
  rewrite !normalise_location_high in * by lia.
  destruct (gTouchPosition _) as [h v]. cbn [fst snd] in *. now subst.
Qed.

Lemma single_touch_position_saturates_witness :
  gTouchPosition
    (loop_iteration arm_invalid
       {| touches := [(1800, 700)]; horizontalTouches := [2000; 0] |}
       globals_init) = (one, one).
Proof.
  apply (single_touch_position_saturates arm_invalid _ 1800 700 2000);
    first [reflexivity | lia].
Defined.

Lemma fold_accumulate_untouched slots acc :
  Forall (fun slot => fst slot = 0) slots ->
  fold_left accumulate slots acc = acc.
Proof.
  intros Hall. rewrite fold_accumulate_active.
  replace (List.filter active slots) with (@nil (Z * Z)); [reflexivity | ].
  symmetry. induction Hall as [ | slot slots Hs _ IH]; [reflexivity | ].
  cbn [List.filter]. unfold active at 1. rewrite Hs. exact IH.
Qed.

Lemma fold_accumulateHorizontal_untouched slots acc :
  Forall (fun loc => loc = 0) slots ->
  fold_left accumulateHorizontal slots acc = acc.
Proof.
  intros Hall. rewrite fold_accumulateHorizontal_active.
  replace (List.filter activeHorizontal slots) with (@nil Z);
    [reflexivity | ].
  symmetry. induction Hall as [ | slot slots Hs _ IH]; [reflexivity | ].
  cbn [List.filter]. unfold activeHorizontal at 1. rewrite Hs. exact IH.
Qed.

(** X8: on a target whose conversion turns NaN into 0 (the board's ARM
    VFP), every reading without touch publishes (0, 0, 0), whatever was
    published before. *)
Theorem no_touch_publishes_zero invalid t g :
  invalid S754_nan = 0 ->
  Forall (fun slot => fst slot = 0) (touches t) ->
  Forall (fun loc => loc = 0) (horizontalTouches t) ->
  ControlState (loop_iteration invalid t g) = (zero, zero, zero).
Proof.
  intros Hnan Hv Hh. rewrite loop_iteration_published.
  unfold aggregateVertical, aggregateHorizontal.
  rewrite (fold_accumulate_untouched _ _ Hv).
  rewrite (fold_accumulateHorizontal_untouched _ _ Hh).
  cbn [fst snd]. rewrite average_of_none, Hnan.
  vm_compute. reflexivity.
Qed.

Lemma no_touch_publishes_zero_witness :
  ControlState
    (loop_iteration arm_invalid
       {| touches := [(0, 12); (0, 0); (0, 7)]; horizontalTouches := [0; 0] |}
       (loop_iteration arm_invalid centre_touch globals_init))
  = (zero, zero, zero).
Proof.
  apply (no_touch_publishes_zero arm_invalid).
  - reflexivity.
  - repeat constructor.
  - repeat constructor.
Defined.

(** X9: of two single touches, the one with the larger size never
    publishes a smaller size, wherever the two are, and the one with the
    larger vertical location never publishes a smaller vertical position,
    whatever their sizes (16-bit readings). *)
Theorem single_touch_monotone invalid t t' L S L' S' g g' :
  List.filter active (touches t) = [(L, S)] ->
  List.filter active (touches t') = [(L', S')] ->
  0 <= L <= 65535 -> 0 <= L' <= 65535 ->
  0 <= S <= 65535 -> 0 <= S' <= 65535 ->
  (S <= S' ->
   leb (gTouchSize (loop_iteration invalid t g))
       (gTouchSize (loop_iteration invalid t' g')) = true) /\
  (L <= L' ->
   leb (snd (gTouchPosition (loop_iteration invalid t g)))
       (snd (gTouchPosition (loop_iteration invalid t' g'))) = true).
Proof.
  intros Hact Hact' HL HL' HS HS'.
  pose proof (loop_iteration_published invalid t g) as Hp.
  pose proof (loop_iteration_published invalid t' g') as Hp'.
  rewrite (aggregateVertical_single invalid t L S Hact) in Hp by lia.
  rewrite (aggregateVertical_single invalid t' L' S' Hact') in Hp' by lia.
  unfold ControlState in Hp, Hp'.
  injection Hp as Hv _ Hs. injection Hp' as Hv' _ Hs'.
  cbn [fst snd] in Hv, Hs, Hv', Hs'.
  rewrite Hv, Hs, Hv', Hs'. split; intros Hle.
  - apply normalise_size_monotone; lia.
  - apply normalise_location_monotone; lia.
Qed.

(** A small touch far along the pad and a large touch near its start:
    the sizes are ordered one way, the positions the other way. *)
Lemma single_touch_monotone_witness :
  leb (gTouchSize
         (loop_iteration arm_invalid
            {| touches := [(1500, 1000)]; horizontalTouches := [] |}
            globals_init))
      (gTouchSize
         (loop_iteration arm_invalid
            {| touches := [(0, 0); (300, 4000)]; horizontalTouches := [] |}
            globals_init)) = true /\
  leb (snd (gTouchPosition
              (loop_iteration arm_invalid
                 {| touches := [(0, 0); (300, 4000)];
                    horizontalTouches := [] |}
                 globals_init)))
      (snd (gTouchPosition
              (loop_iteration arm_invalid
                 {| touches := [(1500, 1000)]; horizontalTouches := [] |}
                 globals_init))) = true.
Proof.
  split.
  - refine (proj1 (single_touch_monotone arm_invalid
                     {| touches := [(1500, 1000)]; horizontalTouches := [] |}
                     {| touches := [(0, 0); (300, 4000)];
                        horizontalTouches := [] |}
                     1500 1000 300 4000 globals_init globals_init
                     _ _ _ _ _ _) _);
      first [reflexivity | lia].
  - refine (proj2 (single_touch_monotone arm_invalid
                     {| touches := [(0, 0); (300, 4000)];
                        horizontalTouches := [] |}
                     {| touches := [(1500, 1000)]; horizontalTouches := [] |}
                     300 4000 1500 1000 globals_init globals_init
                     _ _ _ _ _ _) _);
      first [reflexivity | lia].
Defined.

End LoopMore.

(** ** The audio callback, continued *)

Module RenderMore.
Import F32 TrillPad RenderChecks RenderFacts.
Section Render.
Context `{Dsp : DspLibrary}.

Lemma render_frame_patch n context (p : Patch) :
  let p' := snd (render_frame n (context, p)) in
  gTouchPosition (globals p') = gTouchPosition (globals p) /\
  gTouchSize (globals p') = gTouchSize (globals p) /\
  freqFilt p' = step_filter
                  (Utilities.map (snd (gTouchPosition (globals p))) (of_int 0)
                     (of_int 1) (fst gFreqRange) (snd gFreqRange))
                  (freqFilt p) /\
  panFilt p' = step_filter (fst (gTouchPosition (globals p))) (panFilt p) /\
  ampFilt p' = step_filter (gTouchSize (globals p)) (ampFilt p).
Proof.
  unfold render_frame, step_filter.
  destruct (OnePole_process (freqFilt p) _) as [freqFilt' frequency].
  destruct (OnePole_process (panFilt p) _) as [panFilt' panning].
  destruct (pan_gains panning) as [ampL ampR].
  destruct (OnePole_process (ampFilt p) _) as [ampFilt' amplitude].
  destruct (Oscillator_process _) as [osc'' sample].
  cbn. easy.
Qed.

Lemma render_frame_context n context (p : Patch) :
  fst (render_frame n (context, p))
  = write_channels n (fst (pan_gains (panning_of p)))
      (snd (pan_gains (panning_of p))) (frame_output p) context.
Proof.
  unfold render_frame, panning_of, frame_output, frequency_of, pan_gains.
  destruct (OnePole_process (freqFilt p) _) as [freqFilt' frequency].
  destruct (OnePole_process (panFilt p) _) as [panFilt' panning].
  destruct (OnePole_process (ampFilt p) _) as [ampFilt' amplitude].
  cbn [fst snd].
  destruct (Oscillator_process _) as [osc'' sample].
  reflexivity.
Qed.

Lemma audioWrite_length context frame channel value :
  length (audioOut (audioWrite context frame channel value))
  = length (audioOut context).
Proof. cbn [audioWrite audioOut]. apply length_insert. Qed.

Lemma write_channels_length n ampL ampR out context :
  length (audioOut (write_channels n ampL ampR out context))
  = length (audioOut context).
Proof.
  unfold write_channels.
  generalize (seq 0 (audioOutChannels context)). intros channels.
  revert context. induction channels as [ | ch channels IH]; intros context;
    [reflexivity | ].
  cbn [fold_left]. rewrite IH.
  destruct (ch =? 0)%nat; [apply audioWrite_length | ].
  destruct (ch =? 1)%nat; [apply audioWrite_length | reflexivity].
Qed.

Lemma render_frames_shape frames : forall context (p : Patch),
  let s := fold_left (fun s n => render_frame n s) frames (context, p) in
  audioFrames (fst s) = audioFrames context /\
  audioOutChannels (fst s) = audioOutChannels context /\
  length (audioOut (fst s)) = length (audioOut context) /\
  gTouchPosition (globals (snd s)) = gTouchPosition (globals p) /\
  gTouchSize (globals (snd s)) = gTouchSize (globals p).
Proof.
  induction frames as [ | n frames IH]; intros context p; [easy | ].
  cbn [fold_left].
  destruct (render_frame_patch n context p) as (Hp & Hs & _).
  pose proof (render_frame_context n context p) as Hc.
  destruct (render_frame n (context, p)) as [context1 p1].
  cbn [fst snd] in Hp, Hs, Hc.
  specialize (IH context1 p1). cbv zeta in IH.
  destruct IH as (H1 & H2 & H3 & H4 & H5).
  cbv zeta. rewrite H1, H2, H3, H4, H5, Hp, Hs, Hc.
  rewrite write_channels_length.
  destruct (write_channels_other n (fst (pan_gains (panning_of p)))
              (snd (pan_gains (panning_of p))) (frame_output p) context
              (length (audioOut context) + n * audioOutChannels context + 2)
              ltac:(intros; lia)) as (Hch & Hfr & _).
  rewrite Hch, Hfr. easy.
Qed.

(** X10: [render] never writes the control values [gTouchPosition] and
    [gTouchSize], and leaves the frame count, the channel count and the
    length of the output buffer as they were. *)
Theorem render_keeps_controls_and_shape context (p : Patch) :
  let s := render context p in
  gTouchPosition (globals (snd s)) = gTouchPosition (globals p) /\
  gTouchSize (globals (snd s)) = gTouchSize (globals p) /\
  audioFrames (fst s) = audioFrames context /\
  audioOutChannels (fst s) = audioOutChannels context /\
  length (audioOut (fst s)) = length (audioOut context).
Proof.
  destruct (render_frames_shape (seq 0 (audioFrames context)) context p)
    as (H1 & H2 & H3 & H4 & H5).
  unfold render. easy.
Qed.


(** Channels from 2 on make the body of the channel loop do nothing. *)
Lemma write_channels_fold_idle n ampL ampR out channels : forall context,
  Forall (fun ch => (2 <= ch)%nat) channels ->
  fold_left
    (fun context channel =>
       if (channel =? 0)%nat
       then audioWrite context n channel (mul ampL out)
       else if (channel =? 1)%nat
            then audioWrite context n channel (mul ampR out)
            else context)
    channels context = context.
Proof.
  induction channels as [ | ch channels IH]; intros context Hall;
    [reflexivity | ].
  apply Forall_cons in Hall as [Hch Hall]. cbn [fold_left].
  destruct (Nat.eqb_spec ch 0); [lia | ].
  destruct (Nat.eqb_spec ch 1); [lia | ].
  apply IH, Hall.
Qed.

Lemma write_channels_stereo n ampL ampR out context :
  (2 <= audioOutChannels context)%nat ->
  (n * audioOutChannels context + 1 < length (audioOut context))%nat ->
  let context' := write_channels n ampL ampR out context in
  audioOut context' !! (n * audioOutChannels context)%nat
    = Some (mul ampL out) /\
  audioOut context' !! (n * audioOutChannels context + 1)%nat
    = Some (mul ampR out).
Proof.
  intros Hch Hlen. unfold write_channels.
  destruct (audioOutChannels context) as [ | [ | k]] eqn:Hk; try lia.
  cbn [seq fold_left Nat.eqb].
  rewrite write_channels_fold_idle.
  2: { apply Forall_forall. intros ch Hin. apply elem_of_seq in Hin. lia. }
  cbn [audioWrite audioOut audioOutChannels]. rewrite Hk.
  rewrite Nat.add_0_r. split.
  - rewrite list_lookup_insert_ne by lia.
    apply list_lookup_insert_eq. lia.
  - apply list_lookup_insert_eq. rewrite length_insert. lia.
Qed.

(** Frames other than the one that owns slot [i] leave it alone. *)
Lemma render_frames_elsewhere frames i : forall context (p : Patch),
  (forall n ch, In n frames -> (ch < 2)%nat ->
                (ch < audioOutChannels context)%nat ->
                i <> (n * audioOutChannels context + ch)%nat) ->
  audioOut (fst (fold_left (fun s n => render_frame n s) frames (context, p)))
    !! i = audioOut context !! i.
Proof.
  induction frames as [ | n frames IH]; intros context p Hi; [easy | ].
  cbn [fold_left].
  destruct (render_frame_other n context p i
              (fun ch => Hi n ch (or_introl eq_refl))) as (Hc & _ & Ho).
  destruct (render_frame n (context, p)) as [context1 p1].
  cbn [fst] in Hc, Ho.
  rewrite IH; [exact Ho | ].
  intros m ch Hm. rewrite Hc. apply Hi. now right.
Qed.

Lemma slot_of_other_frame (n m c c' k : nat) :
  (c < k)%nat -> (c' < k)%nat -> n <> m ->
  (n * k + c)%nat <> (m * k + c')%nat.
Proof.
  intros Hc Hc' Hne E.
  assert (Hd : forall a b, (b < k)%nat -> ((a * k + b) / k = a)%nat).
  { intros a b Hb. rewrite Nat.div_add_l, Nat.div_small by lia. lia. }
  apply (f_equal (fun x => x / k)%nat) in E.
  rewrite !Hd in E by assumption. contradiction.
Qed.

(** X11: with at least two output channels and a buffer that holds the
    block, after [render] the slot of channel 0 of every frame [n] holds
    [(1 - pan) * out] and the slot of channel 1 holds [pan * out], for the
    pan value and the oscillator output of that frame; later frames do
    not overwrite them. *)
Theorem render_writes_stereo context (p : Patch) n :
  (2 <= audioOutChannels context)%nat ->
  (n < audioFrames context)%nat ->
  (audioFrames context * audioOutChannels context
   <= length (audioOut context))%nat ->
  let before := patch_before context p n in
  let out := audioOut (fst (render context p)) in
  out !! (n * audioOutChannels context)%nat
    = Some (mul (sub (of_int 1) (panning_of before)) (frame_output before)) /\
  out !! (n * audioOutChannels context + 1)%nat
    = Some (mul (panning_of before) (frame_output before)).
Proof.
  intros Hch Hn Hlen before out. subst out. unfold render.
  replace (audioFrames context) with (n + S (audioFrames context - S n))%nat
    by lia.
  rewrite seq_app, fold_left_app. cbn [seq fold_left]. rewrite !Nat.add_0_l.
  destruct (render_frames_shape (seq 0 n) context p) as (_ & Hc1 & Hl1 & _).
  unfold before, patch_before.
  destruct (fold_left _ (seq 0 n) (context, p)) as [context1 p1].
  cbn [fst snd] in *.
  pose proof (render_frame_context n context1 p1) as Hctx.
  destruct (render_frame n (context1, p1)) as [context2 p2].
  cbn [fst] in Hctx.
  assert (Hin : (n * audioOutChannels context + 1 < length (audioOut context))%nat)
    by nia.
  destruct (write_channels_stereo n (fst (pan_gains (panning_of p1)))
              (snd (pan_gains (panning_of p1))) (frame_output p1) context1
              ltac:(lia) ltac:(rewrite Hc1, Hl1; exact Hin)) as [HL HR].
  destruct (write_channels_other n (fst (pan_gains (panning_of p1)))
              (snd (pan_gains (panning_of p1))) (frame_output p1) context1
              (length (audioOut context) + n * audioOutChannels context1 + 2)
              ltac:(intros; lia)) as (Hc2 & _ & _).
  rewrite <- Hctx in HL, HR, Hc2. rewrite Hc1 in HL, HR, Hc2.
  cbn [pan_gains fst snd] in HL, HR.
  split.
  - rewrite render_frames_elsewhere; [exact HL | ].
    intros m ch Hm Hc Hc'. rewrite Hc2 in *.
    apply List.in_seq in Hm.
    replace (n * audioOutChannels context)%nat
      with (n * audioOutChannels context + 0)%nat by lia.
    apply slot_of_other_frame; lia.
  - rewrite render_frames_elsewhere; [exact HR | ].
    intros m ch Hm Hc Hc'. rewrite Hc2 in *.
    apply List.in_seq in Hm.
    apply slot_of_other_frame; lia.
Qed.

Lemma render_frames_filters frames : forall context (p : Patch),
  let p' := snd (fold_left (fun s n => render_frame n s) frames (context, p)) in
  freqFilt p'
  = Nat.iter (length frames)
      (step_filter
         (Utilities.map (snd (gTouchPosition (globals p))) (of_int 0)
            (of_int 1) (fst gFreqRange) (snd gFreqRange)))
      (freqFilt p) /\
  panFilt p'
  = Nat.iter (length frames)
      (step_filter (fst (gTouchPosition (globals p)))) (panFilt p) /\
  ampFilt p'
  = Nat.iter (length frames) (step_filter (gTouchSize (globals p)))
      (ampFilt p).
Proof.
  induction frames as [ | n frames IH]; intros context p; [easy | ].
  cbn [fold_left length].
  destruct (render_frame_patch n context p) as (Hp & Hs & Hf & Hpan & Ha).
  destruct (render_frame n (context, p)) as [context1 p1].
  cbn [snd] in Hp, Hs, Hf, Hpan, Ha.
  specialize (IH context1 p1). cbv zeta in IH.
  destruct IH as (H1 & H2 & H3).
  cbv zeta. rewrite H1, H2, H3, Hp, Hs, Hf, Hpan, Ha.
  rewrite !Nat.iter_succ_r. easy.
Qed.

(** X12: during one block each of the three filters is stepped exactly
    once per frame, always with the same input: the mapped frequency,
    [gTouchPosition[0]] and [gTouchSize] as they were when the block
    started. *)
Theorem render_steps_filters_once_per_frame context (p : Patch) :
  let p' := snd (render context p) in
  let g := globals p in
  freqFilt p'
  = Nat.iter (audioFrames context)
      (step_filter
         (Utilities.map (snd (gTouchPosition g)) (of_int 0) (of_int 1)
            (fst gFreqRange) (snd gFreqRange)))
      (freqFilt p) /\
  panFilt p'
  = Nat.iter (audioFrames context) (step_filter (fst (gTouchPosition g)))
      (panFilt p) /\
  ampFilt p'
  = Nat.iter (audioFrames context) (step_filter (gTouchSize g)) (ampFilt p).
Proof.
  pose proof (render_frames_filters (seq 0 (audioFrames context)) context p)
    as H.
  rewrite length_seq in H. exact H.
Qed.

End Render.

Lemma render_writes_stereo_witness :
  let before := patch_before three_channel_block passthrough_patch 1 in
  let out := audioOut (fst (render three_channel_block passthrough_patch)) in
  out !! (1 * audioOutChannels three_channel_block)%nat
    = Some (mul (sub (of_int 1) (panning_of before)) (frame_output before)) /\
  out !! (1 * audioOutChannels three_channel_block + 1)%nat
    = Some (mul (panning_of before) (frame_output before)).
Proof.
  apply (render_writes_stereo three_channel_block passthrough_patch 1);
    simpl; lia.
Defined.

End RenderMore.

(** ** The sample loader, continued *)

Module SamplesMore.
Import Samples SamplesChecks.

Section Environment.
Variable sf_open : string -> option SNDFILE.
Variable heap_has : Z -> bool.
Variable fresh : nat -> F32.float32.

Lemma initFile_unopened file smp w :
  sf_open file = None ->
  initFile sf_open heap_has fresh file smp w
  = Ok 1 {| mem := mem w;
            trace := trace w ++ [Cout ("Couldn't open file " ++ file)] |}.
Proof. intros H. unfold initFile. rewrite H. reflexivity. Qed.

Lemma initFile_not_mono file sndfile smp w :
  sf_open file = Some sndfile ->
  channels (info sndfile) <> 1 ->
  initFile sf_open heap_has fresh file smp w
  = Ok 1 {| mem := mem w;
            trace := trace w
                     ++ [Cout ("Error: " ++ file ++ " is not a mono file")] |}.
Proof.
  intros H Hc. unfold initFile. rewrite H.
  apply Z.eqb_neq in Hc. rewrite Hc. reflexivity.
Qed.

Lemma initFile_bad_pointer file sndfile smp w :
  sf_open file = Some sndfile ->
  channels (info sndfile) = 1 ->
  match smp with NULL => True | Ptr p => mem w !! p = None end ->
  initFile sf_open heap_has fresh file smp w = Undefined.
Proof.
  intros H Hc Hp. unfold initFile. rewrite H, Hc. cbn [Z.eqb Pos.eqb negb].
  unfold mbind, M_bind, load.
  destruct smp as [ | p]; [reflexivity | ]. now rewrite Hp.
Qed.

Lemma initFile_no_memory file sndfile p d w :
  sf_open file = Some sndfile ->
  channels (info sndfile) = 1 ->
  mem w !! p = Some d ->
  let len := Int.wrap (frames (info sndfile) * 1) in
  (0 <=? len) && heap_has len = false ->
  initFile sf_open heap_has fresh file (Ptr p) w
  = Throw {| mem := <[p := {| samples := samples d; sampleLen := len |}]> (mem w);
             trace := trace w |}.
Proof.
  intros Hopen Hchan Hp len Hheap. unfold initFile.
  rewrite Hopen, Hchan. cbn [Z.eqb Pos.eqb negb].
  unfold mbind, M_bind, load, store, new_float.
  repeat first [ rewrite Hp | rewrite lookup_insert_eq
               | progress cbn [mem trace sampleLen] ].
  fold len. rewrite Hheap. reflexivity.
Qed.

Lemma initFile_loaded file sndfile p d w :
  sf_open file = Some sndfile ->
  channels (info sndfile) = 1 ->
  mem w !! p = Some d ->
  let len := Int.wrap (frames (info sndfile) * 1) in
  (0 <=? len) && heap_has len = true ->
  initFile sf_open heap_has fresh file (Ptr p) w
  = Ok 0 {| mem := <[p := {| samples := Some (filled fresh sndfile len);
                             sampleLen := len |}]> (mem w);
            trace := trace w ++ load_events sndfile len |}.
Proof.
  intros Hopen Hchan Hp len Hheap. unfold initFile.
  rewrite Hopen, Hchan. cbn [Z.eqb Pos.eqb negb].
  unfold mbind, M_bind, load, store, new_float.
  repeat first [ rewrite Hp | rewrite lookup_insert_eq
               | progress cbn [mem trace sampleLen] ].
  fold len. rewrite Hheap.
  repeat first [ rewrite lookup_insert_eq
               | progress cbn [mem trace sampleLen samples is_null default] ].
  unfold filled, load_events, is_float_format.
  destruct (sf_read_float sndfile _ len) as [readcount buf].
  repeat first [ rewrite lookup_insert_eq
               | progress cbn [mem trace sampleLen samples is_null default] ].
  destruct (_ || _).
  - unfold emit, mret, M_ret.
    repeat first [ rewrite lookup_insert_eq | rewrite insert_insert_eq
                 | progress cbn [mem trace sampleLen samples default] ].
    rewrite <- !app_assoc. reflexivity.
  - unfold emit, mret, M_ret.
    repeat first [ rewrite lookup_insert_eq | rewrite insert_insert_eq
                 | progress cbn [mem trace sampleLen samples default] ].
    rewrite <- !app_assoc. reflexivity.
Qed.


(** Storing one value at each index of [seq r k] overwrites exactly the
    slots [r .. r+k-1]. *)
Lemma fold_insert_seq {A} (v : A) k : forall r (l : list A),
  (r + k <= length l)%nat ->
  fold_left (fun buf i => <[i := v]> buf) (seq r k) l
  = take r l ++ replicate k v ++ drop (r + k) l.
Proof.
  induction k as [ | k IH]; intros r l Hlen.
  - cbn [seq fold_left replicate app]. rewrite Nat.add_0_r.
    symmetry. apply take_drop.
  - rewrite seq_S, fold_left_app. cbn [fold_left].
    rewrite IH by lia.
    assert (Hr : length (take r l) = r) by (apply length_take_le; lia).
    rewrite insert_app_r_alt by lia. rewrite Hr.
    rewrite insert_app_r_alt by (rewrite length_replicate; lia).
    rewrite length_replicate.
    replace (r + k - r - k)%nat with 0%nat by lia.
    destruct (drop (r + k) l) as [ | x rest] eqn:Hd.
    { apply (f_equal length) in Hd. rewrite length_drop in Hd.
      cbn [length] in Hd. lia. }
    cbn [insert list_insert].
    replace (drop (r + S k) l) with rest.
    2: { replace (r + S k)%nat with (r + k + 1)%nat by lia.
         rewrite <- drop_drop, Hd. reflexivity. }
    f_equal.
    replace (S k) with (k + 1)%nat by lia.
    rewrite replicate_add. cbn [replicate]. rewrite <- app_assoc. reflexivity.
Qed.

Lemma fold_alter_length {A} (f : A -> A) idx : forall l : list A,
  length (fold_left (fun buf m => alter f m buf) idx l) = length l.
Proof.
  induction idx as [ | i idx IH]; intros l; [reflexivity | ].
  cbn [fold_left]. rewrite IH. apply length_alter.
Qed.

Lemma block_length n : length (List.map fresh (seq 0 n)) = n.
Proof. now rewrite length_map, length_seq. Qed.

(** What is in the buffer before rescaling: the items read, then zeros. *)
Lemma padded_read sndfile len :
  0 <= len ->
  let block := List.map fresh (seq 0 (Z.to_nat len)) in
  pad_zeros (fst (sf_read_float sndfile block len)) len
    (snd (sf_read_float sndfile block len))
  = take (Z.to_nat len) (items sndfile)
    ++ replicate (Z.to_nat len - length (items sndfile)) (F32.of_int 0).
Proof.
  intros Hlen block. unfold sf_read_float, pad_zeros. cbn [fst snd].
  set (got := take (Z.to_nat len) (items sndfile)).
  assert (Hgot : length got = (Z.to_nat len `min` length (items sndfile))%nat)
    by apply length_take.
  assert (Hblock : length block = Z.to_nat len) by apply block_length.
  rewrite Nat2Z.id.
  replace (Z.to_nat (len - Z.of_nat (length got)))
    with (Z.to_nat len - length got)%nat by lia.
  rewrite fold_insert_seq
    by (rewrite length_app, length_drop; lia).
  rewrite take_app_length.
  rewrite drop_ge by (rewrite length_app, length_drop; lia).
  rewrite app_nil_r. f_equal. f_equal. lia.
Qed.

Lemma filled_length sndfile len :
  0 <= len -> length (filled fresh sndfile len) = Z.to_nat len.
Proof.
  intros Hlen. unfold filled.
  pose proof (padded_read sndfile len Hlen) as Hp. cbv zeta in Hp.
  destruct (sf_read_float sndfile _ len) as [readcount buf].
  cbn [fst snd] in Hp.
  assert (Hl : length (pad_zeros readcount len buf) = Z.to_nat len).
  { rewrite Hp, length_app, length_take, length_replicate. lia. }
  destruct (is_float_format _); [ | exact Hl].
  unfold rescale. now rewrite fold_alter_length.
Qed.

Lemma filled_integer_format sndfile len :
  0 <= len ->
  is_float_format (format (info sndfile)) = false ->
  filled fresh sndfile len
  = take (Z.to_nat len) (items sndfile)
    ++ replicate (Z.to_nat len - length (items sndfile)) (F32.of_int 0).
Proof.
  intros Hlen Hfmt. unfold filled.
  pose proof (padded_read sndfile len Hlen) as Hp. cbv zeta in Hp.
  destruct (sf_read_float sndfile _ len) as [readcount buf].
  cbn [fst snd] in Hp. now rewrite Hfmt.
Qed.


(** X13: when the file cannot be opened, [initFile] prints "Couldn't open
    file <name>", returns 1 and changes nothing in memory. *)
Theorem initFile_unopened_file file smp w :
  sf_open file = None ->
  initFile sf_open heap_has fresh file smp w
  = Ok 1 {| mem := mem w;
            trace := trace w ++ [Cout ("Couldn't open file " ++ file)] |}.
Proof. apply initFile_unopened. Qed.

(** X14: for a mono file, a null (or dangling) [smp] is dereferenced by
    line 55 before line 57 tests it: the call has undefined behaviour
    instead of the error return. *)
Theorem initFile_null_pointer file sndfile smp w :
  sf_open file = Some sndfile ->
  channels (info sndfile) = 1 ->
  match smp with NULL => True | Ptr p => mem w !! p = None end ->
  initFile sf_open heap_has fresh file smp w = Undefined.
Proof. apply initFile_bad_pointer. Qed.

Lemma wrap_frames n : 0 <= n <= Int.INT_MAX -> Int.wrap (n * 1) = n.
Proof. intros H. rewrite Z.mul_1_r. apply wrap_small. unfold Int.INT_MIN. lia. Qed.

(** X15: for a mono file whose frame count fits an [int], with memory
    available, [initFile] returns 0, stores the frame count in
    [sampleLen] and a buffer of exactly that many samples in [samples],
    touches no other object, allocates once and closes the file last. *)
Theorem initFile_loads_mono file sndfile p d w :
  sf_open file = Some sndfile ->
  channels (info sndfile) = 1 ->
  mem w !! p = Some d ->
  0 <= frames (info sndfile) <= Int.INT_MAX ->
  heap_has (frames (info sndfile)) = true ->
  exists buf w',
    initFile sf_open heap_has fresh file (Ptr p) w = Ok 0 w' /\
    mem w' !! p
      = Some {| samples := Some buf; sampleLen := frames (info sndfile) |} /\
    length buf = Z.to_nat (frames (info sndfile)) /\
    (forall q, q <> p -> mem w' !! q = mem w !! q) /\
    List.filter is_New (trace w')
      = List.filter is_New (trace w) ++ [New (frames (info sndfile))] /\
    last (trace w') = Some SfClose.
Proof.
  intros Hopen Hchan Hp Hfr Hheap.
  pose proof (initFile_loaded file sndfile p d w Hopen Hchan Hp) as H.
  cbv zeta in H. rewrite (wrap_frames _ Hfr) in H.
  assert (Hok : (0 <=? frames (info sndfile)) && heap_has (frames (info sndfile))
                = true).
  { rewrite Hheap, andb_true_r. apply Z.leb_le. lia. }
  specialize (H Hok).
  eexists _, _. split; [exact H | ]. cbn [mem trace].
  split; [apply lookup_insert_eq | ].
  split; [apply filled_length; lia | ].
  split; [intros q Hq; apply lookup_insert_ne; congruence | ].
  unfold load_events. split.
  - rewrite !List.filter_app. cbn [List.filter is_New].
    destruct (is_float_format _); cbn [List.filter is_New app];
      now rewrite ?app_nil_r.
  - rewrite !app_assoc. apply last_snoc.
Qed.

(** X16: for a mono file of an integer subformat the loaded buffer holds
    the items the file delivered, cut to the frame count, followed by
    zeros up to the frame count. *)
Theorem initFile_integer_samples file sndfile p d w :
  sf_open file = Some sndfile ->
  channels (info sndfile) = 1 ->
  mem w !! p = Some d ->
  0 <= frames (info sndfile) <= Int.INT_MAX ->
  heap_has (frames (info sndfile)) = true ->
  is_float_format (format (info sndfile)) = false ->
  exists w',
    initFile sf_open heap_has fresh file (Ptr p) w = Ok 0 w' /\
    mem w' !! p
      = Some {| samples :=
                  Some (take (Z.to_nat (frames (info sndfile))) (items sndfile)
                        ++ replicate
                             (Z.to_nat (frames (info sndfile))
                              - length (items sndfile))
                             (F32.of_int 0));
                sampleLen := frames (info sndfile) |}.
Proof.
  intros Hopen Hchan Hp Hfr Hheap Hfmt.
  pose proof (initFile_loaded file sndfile p d w Hopen Hchan Hp) as H.
  cbv zeta in H. rewrite (wrap_frames _ Hfr) in H.
  assert (Hok : (0 <=? frames (info sndfile)) && heap_has (frames (info sndfile))
                = true).
  { rewrite Hheap, andb_true_r. apply Z.leb_le. lia. }
  specialize (H Hok).
  eexists. split; [exact H | ]. cbn [mem].
  rewrite lookup_insert_eq, filled_integer_format by (trivial; lia).
  reflexivity.
Qed.

(** X17: a mono file with 2^31 to 2^32-1 frames makes [sampleLen] wrap to
    a negative [int]; [new float[sampleLen]] then throws: [initFile]
    returns no code, prints nothing, and leaves the negative length in
    the caller's [SampleData] beside the old buffer pointer. *)
Theorem initFile_long_file_throws file sndfile p d w :
  sf_open file = Some sndfile ->
  channels (info sndfile) = 1 ->
  mem w !! p = Some d ->
  2 ^ 31 <= frames (info sndfile) < 2 ^ 32 ->
  exists w',
    initFile sf_open heap_has fresh file (Ptr p) w = Throw w' /\
    trace w' = trace w /\
    mem w' !! p
      = Some {| samples := samples d;
                sampleLen := frames (info sndfile) - 2 ^ 32 |}.
Proof.
  intros Hopen Hchan Hp Hfr.
  pose proof (initFile_no_memory file sndfile p d w Hopen Hchan Hp) as H.
  cbv zeta in H.
  assert (Hw : Int.wrap (frames (info sndfile) * 1)
               = frames (info sndfile) - 2 ^ 32).
  { unfold Int.wrap. rewrite Z.mul_1_r.
    replace (frames (info sndfile) + 2 ^ 31)
      with (frames (info sndfile) - 2 ^ 31 + 1 * 2 ^ 32) by lia.
    rewrite Z.mod_add, Z.mod_small by lia. lia. }
  rewrite Hw in H.
  assert (Hneg : (0 <=? frames (info sndfile) - 2 ^ 32)
                 && heap_has (frames (info sndfile) - 2 ^ 32) = false).
  { apply andb_false_iff. left. apply Z.leb_gt. lia. }
  specialize (H Hneg).
  eexists. split; [exact H | ]. cbn [mem trace].
  split; [reflexivity | apply lookup_insert_eq].
Qed.

(** X19: when the heap cannot serve the request, [initFile] is left by
    the exception of [new] with nothing printed; [sampleLen] is already
    overwritten while [samples] still holds the old pointer. *)
Theorem initFile_out_of_memory file sndfile p d w :
  sf_open file = Some sndfile ->
  channels (info sndfile) = 1 ->
  mem w !! p = Some d ->
  0 <= frames (info sndfile) <= Int.INT_MAX ->
  heap_has (frames (info sndfile)) = false ->
  exists w',
    initFile sf_open heap_has fresh file (Ptr p) w = Throw w' /\
    trace w' = trace w /\
    mem w' !! p
      = Some {| samples := samples d; sampleLen := frames (info sndfile) |}.
Proof.
  intros Hopen Hchan Hp Hfr Hheap.
  pose proof (initFile_no_memory file sndfile p d w Hopen Hchan Hp) as H.
  cbv zeta in H. rewrite (wrap_frames _ Hfr) in H.
  rewrite Hheap, andb_false_r in H. specialize (H eq_refl).
  eexists. split; [exact H | ]. cbn [mem trace].
  split; [reflexivity | apply lookup_insert_eq].
Qed.

(** X18: [initFile] returns only 0 or 1.  When it returns 0 the last
    thing it did was to close the file; when it returns 1 it closed
    nothing, so a file rejected as not mono stays open. *)
Theorem initFile_closes_iff_success file smp w ret w' :
  initFile sf_open heap_has fresh file smp w = Ok ret w' ->
  (ret = 0 /\ last (trace w') = Some SfClose) \/
  (ret = 1 /\
   List.filter is_SfClose (trace w') = List.filter is_SfClose (trace w)).
Proof.
  intros H.
  destruct (sf_open file) as [sndfile | ] eqn:Hopen.
  2: { rewrite (initFile_unopened file smp w Hopen) in H.
       injection H as <- <-. right. split; [reflexivity | ]. cbn [trace].
       rewrite List.filter_app. cbn. apply app_nil_r. }
  destruct (Z.eq_dec (channels (info sndfile)) 1) as [Hchan | Hchan].
  2: { rewrite (initFile_not_mono file sndfile smp w Hopen Hchan) in H.
       injection H as <- <-. right. split; [reflexivity | ]. cbn [trace].
       rewrite List.filter_app. cbn. apply app_nil_r. }
  destruct smp as [ | p].
  { now rewrite (initFile_bad_pointer file sndfile NULL w Hopen Hchan I) in H. }
  destruct (mem w !! p) as [d | ] eqn:Hp.
  2: { now rewrite (initFile_bad_pointer file sndfile (Ptr p) w Hopen Hchan Hp)
         in H. }
  destruct ((0 <=? Int.wrap (frames (info sndfile) * 1))
            && heap_has (Int.wrap (frames (info sndfile) * 1))) eqn:Hheap.
  - rewrite (initFile_loaded file sndfile p d w Hopen Hchan Hp Hheap) in H.
    injection H as <- <-. left. split; [reflexivity | ]. cbn [trace].
    unfold load_events. rewrite !app_assoc. apply last_snoc.
  - now rewrite (initFile_no_memory file sndfile p d w Hopen Hchan Hp Hheap)
      in H.
Qed.

End Environment.

Lemma initFile_unopened_file_witness :
  initFile two_files (fun _ => true) (fun _ => F32.zero) "missing.wav"
    (Ptr 1) main_world
  = Ok 1 {| mem := mem main_world;
            trace := trace main_world
                     ++ [Cout ("Couldn't open file " ++ "missing.wav")] |}.
Proof.
  apply (initFile_unopened_file two_files (fun _ => true) (fun _ => F32.zero)
           "missing.wav" (Ptr 1) main_world).
  reflexivity.
Defined.

Lemma initFile_null_pointer_witness :
  initFile two_files (fun _ => true) (fun _ => F32.zero) "sample.wav"
    NULL main_world = Undefined.
Proof.
  apply (initFile_null_pointer two_files (fun _ => true) (fun _ => F32.zero)
           "sample.wav" mono_file NULL main_world).
  - reflexivity.
  - reflexivity.
  - exact I.
Defined.

Lemma initFile_loads_mono_witness :
  exists buf w',
    initFile two_files (fun _ => true) (fun _ => F32.zero) "sample.wav"
      (Ptr 1) main_world = Ok 0 w' /\
    mem w' !! 1%positive
      = Some {| samples := Some buf; sampleLen := frames (info mono_file) |} /\
    length buf = Z.to_nat (frames (info mono_file)) /\
    (forall q, q <> 1%positive -> mem w' !! q = mem main_world !! q) /\
    List.filter is_New (trace w')
      = List.filter is_New (trace main_world)
        ++ [New (frames (info mono_file))] /\
    last (trace w') = Some SfClose.
Proof.
  apply (initFile_loads_mono two_files (fun _ => true) (fun _ => F32.zero)
           "sample.wav" mono_file 1%positive sampleData_init main_world).
  - reflexivity.
  - reflexivity.
  - vm_compute. reflexivity.
  - vm_compute. split; discriminate.
  - reflexivity.
Defined.

Lemma initFile_integer_samples_witness :
  exists w',
    initFile more_files (fun _ => true) (fun _ => F32.one) "pcm.wav"
      (Ptr 1) main_world = Ok 0 w' /\
    mem w' !! 1%positive
      = Some {| samples :=
                  Some (take (Z.to_nat (frames (info pcm_file)))
                          (items pcm_file)
                        ++ replicate
                             (Z.to_nat (frames (info pcm_file))
                              - length (items pcm_file))
                             (F32.of_int 0));
                sampleLen := frames (info pcm_file) |}.
Proof.
  apply (initFile_integer_samples more_files (fun _ => true)
           (fun _ => F32.one) "pcm.wav" pcm_file 1%positive sampleData_init
           main_world).
  - reflexivity.
  - reflexivity.
  - vm_compute. reflexivity.
  - vm_compute. split; discriminate.
  - reflexivity.
  - reflexivity.
Defined.

Lemma initFile_long_file_throws_witness :
  exists w',
    initFile more_files (fun _ => true) (fun _ => F32.one) "long.wav"
      (Ptr 1) main_world = Throw w' /\
    trace w' = trace main_world /\
    mem w' !! 1%positive
      = Some {| samples := samples sampleData_init;
                sampleLen := frames (info long_file) - 2 ^ 32 |}.
Proof.
  apply (initFile_long_file_throws more_files (fun _ => true)
           (fun _ => F32.one) "long.wav" long_file 1%positive sampleData_init
           main_world).
  - reflexivity.
  - reflexivity.
  - vm_compute. reflexivity.
  - vm_compute. split; [discriminate | reflexivity].
Defined.

Lemma initFile_out_of_memory_witness :
  exists w',
    initFile two_files (fun _ => false) (fun _ => F32.one) "sample.wav"
      (Ptr 1) main_world = Throw w' /\
    trace w' = trace main_world /\
    mem w' !! 1%positive
      = Some {| samples := samples sampleData_init;
                sampleLen := frames (info mono_file) |}.
Proof.
  apply (initFile_out_of_memory two_files (fun _ => false)
           (fun _ => F32.one) "sample.wav" mono_file 1%positive
           sampleData_init main_world).
  - reflexivity.
  - reflexivity.
  - vm_compute. reflexivity.
  - vm_compute. split; discriminate.
  - reflexivity.
Defined.

Lemma initFile_closes_iff_success_witness :
  (1 = 0 /\
   last (trace main_world
         ++ [Cout "Error: stereo.wav is not a mono file"]) = Some SfClose) \/
  (1 = 1 /\
   List.filter is_SfClose
     (trace main_world ++ [Cout "Error: stereo.wav is not a mono file"])
   = List.filter is_SfClose (trace main_world)).
Proof.
  apply (initFile_closes_iff_success two_files (fun _ => true)
           (fun _ => F32.one) "stereo.wav" (Ptr 1) main_world 1
           {| mem := mem main_world;
              trace := trace main_world
                       ++ [Cout "Error: stereo.wav is not a mono file"] |}).
  reflexivity.
Defined.

End SamplesMore.

(** ** [setup] *)

Module SetupMore.
Import F32 TrillPad PadSetup.

(** X20: [setup] succeeds exactly when the sensor initialises (asked with
    threshold 60 and prescaler 1) and is a Trill Square.  On success it
    reports no error and schedules the auxiliary task; on failure it
    prints one error and starts neither the task nor a filter nor the
    oscillator. *)
Theorem setup_starts_work_only_for_a_square hw :
  let '(ok, calls) := setup hw in
  ok = (sensorStatus hw =? 0) && isTrillSquare hw /\
  hd_error calls = Some (SensorSetup 1 24 60 1) /\
  (if ok
   then List.filter is_error calls = [] /\
        In (ScheduleAuxiliaryTask 50 "I2C-read") calls
   else List.filter starts_work calls = [] /\
        length (List.filter is_error calls) = 1%nat).
Proof.
  unfold setup.
  destruct (sensorStatus hw =? 0); cbn [negb andb].
  - destruct (isTrillSquare hw); cbn [negb].
    + repeat split. cbn. tauto.
    + repeat split.
  - repeat split.
Qed.

End SetupMore.

(** ** [main] *)

Module MainMore.
Import Samples Main.

Lemma last_cons_default {A} (x : A) l d d' :
  List.last (x :: l) d = List.last (x :: l) d'.
Proof.
  revert x. induction l as [ | y l IH]; intros x; [reflexivity | ].
  change (List.last (y :: l) d = List.last (y :: l) d'). apply IH.
Qed.

Lemma parse_only_files names : forall fileName rest,
  parse (only_files names ++ rest) fileName
  = parse rest (List.last names fileName).
Proof.
  induction names as [ | name names IH]; intros fileName rest; [reflexivity | ].
  cbn [only_files List.map app parse].
  change (opt_f <? 0) with false. change (opt_f =? opt_h) with false.
  rewrite Z.eqb_refl. cbv iota.
  change (List.map (fun name => (opt_f, name)) names) with (only_files names).
  rewrite IH. destruct names as [ | name' names]; [reflexivity | ].
  change (List.last (name :: name' :: names) fileName)
    with (List.last (name' :: names) fileName).
  f_equal. apply last_cons_default.
Qed.

Lemma filter_audio_loader (es : list event) :
  List.filter is_audio (List.map Loader es) = [].
Proof. induction es as [ | e es IH]; [reflexivity | exact IH]. Qed.

Lemma filter_free_loader (es : list event) :
  List.filter is_free (List.map Loader es) = [].
Proof. induction es as [ | e es IH]; [reflexivity | exact IH]. Qed.

Lemma run_loop_sleeps flags :
  Forall (fun s => s = Usleep) (snd (run_loop flags)).
Proof.
  induction flags as [ | [ | ] flags IH]; cbn [run_loop]; try constructor.
  destruct (run_loop flags) as [stopped sleeps]. cbn [snd] in *.
  constructor; [reflexivity | exact IH].
Qed.

Lemma filter_sleeps (f : step -> bool) sleeps :
  f Usleep = false -> Forall (fun s => s = Usleep) sleeps ->
  List.filter f sleeps = [].
Proof.
  intros Hf Hall. induction Hall as [ | s sleeps -> _ IH]; [reflexivity | ].
  cbn [List.filter]. now rewrite Hf.
Qed.

Lemma run_loop_until_stop k rest :
  run_loop (replicate k false ++ true :: rest) = (true, replicate k Usleep).
Proof.
  induction k as [ | k IH]; [reflexivity | ].
  cbn [replicate app run_loop]. now rewrite IH.
Qed.

Lemma run_loop_never_stopped k :
  run_loop (replicate k false) = (false, replicate k Usleep).
Proof.
  induction k as [ | k IH]; [reflexivity | ].
  cbn [replicate run_loop]. now rewrite IH.
Qed.

(** X21: the first option other than [-f] ends [main] at once: usage is
    printed, the settings are freed, and the exit code is 0 for [-h]
    and 1 for anything else; earlier [-f] options and everything after
    are ignored and no file is opened. *)
Theorem main_stops_at_help_or_unknown_option e names c optarg rest :
  options e = only_files names ++ (c, optarg) :: rest ->
  0 <= c -> c <> opt_f ->
  main e = (Exit (if c =? opt_h then 0 else 1), [Usage; SettingsFree]).
Proof.
  intros Hopt Hc Hf. unfold main. rewrite Hopt, parse_only_files.
  cbn [parse].
  destruct (Z.ltb_spec c 0); [lia | ].
  destruct (c =? opt_h); [reflexivity | ].
  destruct (Z.eqb_spec c opt_f); [contradiction | reflexivity].
Qed.

(** X22: with [-f] options only, the file [main] hands to [initFile] is
    the one named by the last option, or "sample.wav" when there is none
    or the name is empty: [main] announces that name, then does what
    [initFile] does on that file, and it can exit with 0 only if
    [initFile] returned 0 on that file. *)
Theorem main_loads_last_file_option e names :
  options e = only_files names ->
  let chosen :=
    if String.eqb (List.last names EmptyString) EmptyString
    then "sample.wav"%string
    else List.last names EmptyString in
  let loading :=
    initFile (files e) (heap e) (garbage e) chosen (Ptr 1) main_world in
  (exists rest,
     snd (main e)
     = [Say ("Loading file " ++ chosen);
        Say "You can load a custom file with `--file [-f] filename'"]
       ++ List.map Loader (trace_of loading) ++ rest) /\
  (fst (main e) = Exit 0 -> exists w, loading = Ok 0 w).
Proof.
  intros Hopt chosen loading.
  assert (Hm : main e = load_and_play e (List.last names EmptyString)).
  { unfold main. rewrite Hopt.
    rewrite <- (app_nil_r (only_files names)), parse_only_files.
    reflexivity. }
  rewrite Hm. unfold load_and_play.
  change (default_name (List.last names EmptyString)) with chosen.
  fold loading.
  destruct loading as [ret w | w | ]; cbn [trace_of List.map].
  - destruct (Z.eqb_spec ret 0) as [-> | Hret]; cbn [negb].
    2: { split; [ | intros H; discriminate H].
         eexists. cbn [snd]. rewrite <- !app_assoc. reflexivity. }
    destruct (negb (initAudioStatus e =? 0)).
    { split; [ | intros H; discriminate H].
      eexists. cbn [snd]. rewrite <- !app_assoc. reflexivity. }
    destruct (negb (startAudioStatus e =? 0)).
    { split; [ | intros H; discriminate H].
      eexists. cbn [snd]. rewrite <- !app_assoc. reflexivity. }
    destruct (run_loop (shouldStop e)) as [[ | ] sleeps].
    + split; [ | intros _; now exists w].
      eexists. cbn [snd]. rewrite <- !app_assoc. reflexivity.
    + split; [ | intros H; discriminate H].
      eexists. cbn [snd]. rewrite <- !app_assoc. reflexivity.
  - split; [ | intros H; discriminate H].
    exists []. cbn [snd]. now rewrite app_nil_r.
  - split; [ | intros H; discriminate H].
    exists []. reflexivity.
Qed.

(** X23: when [initFile] does not return 0, [main] does not exit with 0,
    makes no call to the audio device, and never frees the settings. *)
Theorem main_without_samples_starts_no_audio e fileName :
  parse (options e) EmptyString = Proceed fileName ->
  (forall w, initFile (files e) (heap e) (garbage e) (default_name fileName)
               (Ptr 1) main_world <> Ok 0 w) ->
  fst (main e) <> Exit 0 /\
  List.filter is_audio (snd (main e)) = [] /\
  List.filter is_free (snd (main e)) = [].
Proof.
  intros Hparse Hload. unfold main. rewrite Hparse. unfold load_and_play.
  destruct (initFile _ _ _ _ _ _) as [ret w | w | ]; cbn [fst snd].
  - destruct (Z.eqb_spec ret 0) as [-> | Hret]; [now elim (Hload w) | ].
    cbn [negb fst snd]. split; [discriminate | ].
    rewrite !List.filter_app, filter_audio_loader, filter_free_loader.
    split; reflexivity.
  - split; [discriminate | ].
    rewrite !List.filter_app, filter_audio_loader, filter_free_loader.
    split; reflexivity.
  - split; [discriminate | ]. split; reflexivity.
Qed.

(** X24: [main] exits with 0 only after printing usage for [-h], or
    after the audio device was initialised, started, stopped and
    cleaned up, in that order. *)
Theorem main_exit_0_means_played_or_help e :
  fst (main e) = Exit 0 ->
  snd (main e) = [Usage; SettingsFree] \/
  List.filter is_audio (snd (main e))
  = [InitAudio; StartAudio; StopAudio; CleanupAudio].
Proof.
  unfold main.
  destruct (parse (options e) EmptyString) as [ret | fileName]; cbn [fst snd].
  { intros _. now left. }
  intros H. right. revert H. unfold load_and_play.
  destruct (initFile _ _ _ _ _ _) as [ret w | w | ]; try discriminate.
  destruct (negb (ret =? 0)); [discriminate | ].
  destruct (negb (initAudioStatus e =? 0)); [discriminate | ].
  destruct (negb (startAudioStatus e =? 0)); [discriminate | ].
  pose proof (run_loop_sleeps (shouldStop e)) as Hs.
  destruct (run_loop (shouldStop e)) as [[ | ] sleeps]; [ | discriminate].
  intros _. cbn [snd] in *.
  rewrite !List.filter_app, filter_audio_loader.
  rewrite (filter_sleeps is_audio sleeps eq_refl Hs).
  destruct (verbose e); [destruct (mem w !! 1%positive) | ]; reflexivity.
Qed.

(** X25: on every path [main] frees the settings at most once. *)
Theorem main_frees_settings_at_most_once e :
  (length (List.filter is_free (snd (main e))) <= 1)%nat.
Proof.
  unfold main.
  destruct (parse (options e) EmptyString) as [ret | fileName]; cbn [snd].
  { cbn. lia. }
  unfold load_and_play.
  pose proof (run_loop_sleeps (shouldStop e)) as Hs.
  destruct (initFile _ _ _ _ _ _) as [ret w | w | ]; cbn [snd].
  - assert (Ht : forall told : list step,
               told = (if verbose e
                       then match mem w !! 1%positive with
                            | Some d => [SaySamples (sampleLen d)]
                            | None => []
                            end
                       else []) ->
               List.filter is_free told = []).
    { intros told ->.
      destruct (verbose e); [destruct (mem w !! 1%positive) | ]; reflexivity. }
    destruct (negb (ret =? 0)); cbn [snd].
    { rewrite !List.filter_app, filter_free_loader. cbn. lia. }
    destruct (negb (initAudioStatus e =? 0)); cbn [snd].
    { rewrite !List.filter_app, filter_free_loader, (Ht _ eq_refl). cbn. lia. }
    destruct (negb (startAudioStatus e =? 0)); cbn [snd].
    { rewrite !List.filter_app, filter_free_loader, (Ht _ eq_refl). cbn. lia. }
    destruct (run_loop (shouldStop e)) as [[ | ] sleeps]; cbn [snd] in *;
      rewrite !List.filter_app, filter_free_loader, (Ht _ eq_refl),
        (filter_sleeps is_free sleeps eq_refl Hs); cbn; lia.
  - rewrite !List.filter_app, filter_free_loader. cbn. lia.
  - cbn. lia.
Qed.

(** X26: once the samples are loaded and the audio device runs, [main]
    sleeps once for every test that sees [gShouldStop] false and, at the
    first test that sees it true, stops and cleans up the device and
    exits with 0; while the flag stays false it never stops the device. *)
Theorem main_plays_until_stopped e fileName w k rest :
  parse (options e) EmptyString = Proceed fileName ->
  initFile (files e) (heap e) (garbage e) (default_name fileName) (Ptr 1)
    main_world = Ok 0 w ->
  initAudioStatus e = 0 -> startAudioStatus e = 0 ->
  (shouldStop e = replicate k false ++ true :: rest ->
   exists before,
     main e = (Exit 0,
               before ++ [InstallHandlers] ++ replicate k Usleep
               ++ [StopAudio; CleanupAudio])) /\
  (shouldStop e = replicate k false ->
   fst (main e) = Waiting /\
   List.filter (fun s => match s with StopAudio | CleanupAudio => true
                                 | _ => false end) (snd (main e)) = []).
Proof.
  intros Hparse Hload Hinit Hstart. unfold main. rewrite Hparse.
  unfold load_and_play. rewrite Hload, Hinit, Hstart. cbn [Z.eqb negb].
  split; intros Hflags; rewrite Hflags.
  - rewrite run_loop_until_stop. eexists. reflexivity.
  - rewrite run_loop_never_stopped. cbn [fst snd]. split; [reflexivity | ].
    rewrite !List.filter_app.
    assert (Hl : forall es, List.filter
                   (fun s => match s with StopAudio | CleanupAudio => true
                                     | _ => false end) (List.map Loader es)
                 = []).
    { induction es as [ | x es IH]; [reflexivity | exact IH]. }
    rewrite Hl.
    rewrite (filter_sleeps _ (replicate k Usleep) eq_refl).
    2: { clear. induction k; constructor; trivial. }
    destruct (verbose e); [destruct (mem w !! 1%positive) | ]; reflexivity.
Qed.

Lemma main_stops_at_help_or_unknown_option_witness :
  main (demo [(opt_f, "stereo.wav"%string); (opt_h, EmptyString);
              (opt_f, "sample.wav"%string)])
  = (Exit (if opt_h =? opt_h then 0 else 1), [Usage; SettingsFree]).
Proof.
  apply (main_stops_at_help_or_unknown_option
           (demo [(opt_f, "stereo.wav"%string); (opt_h, EmptyString);
                  (opt_f, "sample.wav"%string)])
           ["stereo.wav"%string] opt_h EmptyString [(opt_f, "sample.wav"%string)]).
  - reflexivity.
  - vm_compute. discriminate.
  - vm_compute. discriminate.
Defined.

(** The last of three [-f] options names the stereo file: it is the one
    opened, and rejected. *)
Lemma main_loads_last_file_option_witness :
  let e := demo (only_files ["sample.wav"%string; "pcm.wav"%string;
                             "stereo.wav"%string]) in
  let chosen :=
    if String.eqb
         (List.last ["sample.wav"%string; "pcm.wav"%string;
                     "stereo.wav"%string] EmptyString) EmptyString
    then "sample.wav"%string
    else List.last ["sample.wav"%string; "pcm.wav"%string;
                    "stereo.wav"%string] EmptyString in
  let loading :=
    initFile (files e) (heap e) (garbage e) chosen (Ptr 1) main_world in
  (exists rest,
     snd (main e)
     = [Say ("Loading file " ++ chosen);
        Say "You can load a custom file with `--file [-f] filename'"]
       ++ List.map Loader (trace_of loading) ++ rest) /\
  (fst (main e) = Exit 0 -> exists w, loading = Ok 0 w).
Proof.
  apply (main_loads_last_file_option
           (demo (only_files ["sample.wav"%string; "pcm.wav"%string;
                              "stereo.wav"%string]))
           ["sample.wav"%string; "pcm.wav"%string; "stereo.wav"%string]).
  reflexivity.
Defined.

Lemma main_without_samples_starts_no_audio_witness :
  fst (main (demo (only_files ["stereo.wav"%string]))) <> Exit 0 /\
  List.filter is_audio (snd (main (demo (only_files ["stereo.wav"%string])))) = [] /\
  List.filter is_free (snd (main (demo (only_files ["stereo.wav"%string])))) = [].
Proof.
  apply (main_without_samples_starts_no_audio
           (demo (only_files ["stereo.wav"%string])) "stereo.wav"%string).
  - reflexivity.
  - intros w H. vm_compute in H. discriminate H.
Defined.

Lemma main_exit_0_means_played_or_help_witness :
  snd (main (demo [])) = [Usage; SettingsFree] \/
  List.filter is_audio (snd (main (demo [])))
  = [InitAudio; StartAudio; StopAudio; CleanupAudio].
Proof.
  apply (main_exit_0_means_played_or_help (demo [])).
  vm_compute. reflexivity.
Defined.

Lemma main_plays_until_stopped_witness :
  (shouldStop (demo []) = replicate 2 false ++ true :: [] ->
   exists before,
     main (demo [])
     = (Exit 0,
        before ++ [InstallHandlers] ++ replicate 2 Usleep
        ++ [StopAudio; CleanupAudio])) /\
  (shouldStop (demo []) = replicate 2 false ->
   fst (main (demo [])) = Waiting /\
   List.filter (fun s => match s with StopAudio | CleanupAudio => true
                                 | _ => false end) (snd (main (demo []))) = []).
Proof.
  apply (main_plays_until_stopped (demo []) EmptyString
           (match initFile two_files (fun _ => true) (fun _ => F32.zero)
                    "sample.wav" (Ptr 1) main_world with
            | Ok _ w => w
            | _ => main_world
            end) 2 []).
  - reflexivity.
  - vm_compute. reflexivity.
  - reflexivity.
  - reflexivity.
Defined.

End MainMore.
